(** * Game-tree search of [minimax.py]: depth-limited minimax,
    probability-limited minimax, the best-move selector and the self-play
    loop, embedded over an abstract board interface.

    The board object of the program comes from the [chess] package, which is
    not part of the repository: it is taken as an interface ([BoardAPI]) whose
    operations carry the names the program calls.  The program mutates one
    shared board object; here every search is a computation that threads the
    board explicitly and returns it next to its result, so that what a call
    leaves behind in the board can be stated.

    Scores are Python floats in the program; they are modelled as exact
    rationals ([Q]), which keeps every comparison and every [max]/[min] of
    the program as it is written and leaves rounding out. *)

From Stdlib Require Import List ZArith QArith Lqa Bool Lia Arith Permutation.
From Stdlib Require Ascii String.
Import ListNotations Ascii.AsciiSyntax String.StringSyntax.
Delimit Scope char_scope with char.
Delimit Scope string_scope with string.

(** ** Scores *)

Definition Score := Q.

(** [max_score = 10000.0], the local constant of all three search functions. *)
Definition max_score : Score := 10000 # 1.

(** Python's [a < b] on scores. *)
Definition Qltb (a b : Q) : bool := negb (Qle_bool b a).

(** Python's built-in [max(a, b)]: the first argument is kept unless the
    second one is strictly greater. *)
Definition py_max (a b : Score) : Score := if Qltb a b then b else a.

(** Python's built-in [min(a, b)]: the first argument is kept unless the
    second one is strictly smaller. *)
Definition py_min (a b : Score) : Score := if Qltb b a then b else a.

(** ** Results of running a piece of the program *)

(** The exceptions the modelled code can raise. *)
Inductive exn : Type :=
| ZeroDivisionError
| AttributeError.

(** A run either returns a value, raises, or exhausts the recursion budget
    that the embedding uses in place of Python's unbounded recursion. *)
Inductive outcome (A : Type) : Type :=
| Ret (a : A)
| Raise (e : exn)
| OutOfFuel.

Arguments Ret {A} a.
Arguments Raise {A} e.
Arguments OutOfFuel {A}.

(** Python's true division [x / n] of a score by a move count. *)
Definition py_div (x : Score) (n : Z) : outcome Score :=
  if (n =? 0)%Z then Raise ZeroDivisionError else Ret (x / inject_Z n).

(** ** The board interface *)

(** The operations of [chess.Board] that the program uses.  [pop] is only
    ever called right after a [push] on the same board, where the move stack
    is not empty, so it is taken as total.  The program iterates over
    [board.legal_moves] while its loop body pushes and pops; a loop is
    modelled over the list of legal moves of the board at loop entry. *)
Class BoardAPI (Board Move : Type) : Type := {
  legal_moves : Board -> list Move;
  push : Board -> Move -> Board;
  pop : Board -> Board;
  turn : Board -> bool;
  is_game_over : Board -> bool;
  is_checkmate : Board -> bool;
  reset : Board -> Board
}.

(** The make/unmake contract of the interface: undoing a legal move that was
    just made gives the board back. *)
Definition make_unmake_paired {Board Move} `{BoardAPI Board Move} : Prop :=
  forall (b : Board) (m : Move), In m (legal_moves b) -> pop (push b m) = b.

(** ** A state-and-exception monad over the shared board *)

Section Monad.
Variable Board : Type.

Definition Py (A : Type) : Type := Board -> outcome A * Board.

Definition ret {A} (a : A) : Py A := fun b => (Ret a, b).

Definition raise {A} (e : exn) : Py A := fun b => (Raise e, b).

Definition out_of_fuel {A} : Py A := fun b => (OutOfFuel, b).

Definition bind {A B} (c : Py A) (k : A -> Py B) : Py B :=
  fun b =>
    match c b with
    | (Ret a, b') => k a b'
    | (Raise e, b') => (Raise e, b')
    | (OutOfFuel, b') => (OutOfFuel, b')
    end.

(** Reading an attribute or calling a query method of the board. *)
Definition ask {A} (f : Board -> A) : Py A := fun b => (Ret (f b), b).

(** Calling a mutating method of the board. *)
Definition update (f : Board -> Board) : Py unit := fun b => (Ret tt, f b).

(** Lifting a pure computation that may raise. *)
Definition lift {A} (r : outcome A) : Py A := fun b => (r, b).
End Monad.

Arguments ret {Board A} a.
Arguments raise {Board A} e.
Arguments out_of_fuel {Board A}.
Arguments bind {Board A B} c k.
Arguments ask {Board A} f.
Arguments update {Board} f.
Arguments lift {Board A} r.

Declare Scope py_scope.
Delimit Scope py_scope with py.
Notation "x <- c ;; k" := (bind c (fun x => k))
  (at level 100, c at next level, right associativity) : py_scope.
Notation "c ;; k" := (bind c (fun _ => k))
  (at level 100, right associativity) : py_scope.
Open Scope py_scope.

(** A [for x in xs:] loop that carries one rebound local variable. *)
Fixpoint for_each {Board X A} (xs : list X) (acc : A)
         (body : A -> X -> Py Board A) : Py Board A :=
  match xs with
  | [] => ret acc
  | x :: rest => acc' <- body acc x ;; for_each rest acc' body
  end.

(** ** The search functions *)

Section Search.
Context {Board Move : Type} `{API : BoardAPI Board Move}.

Let Evaluator : Type := Board -> Score.

(** [minimax(board, depth, max_depth, color, evaluator)].  [fuel] bounds the
    nesting of recursive calls; a call that needs no recursive call returns
    with any fuel. *)
Fixpoint minimax (fuel : nat) (depth max_depth : Z) (color : bool)
         (evaluator : Evaluator) {struct fuel} : Py Board Score :=
  let recur (d md : Z) (c : bool) : Py Board Score :=
    match fuel with
    | O => out_of_fuel
    | S fuel' => minimax fuel' d md c evaluator
    end in
  game_over <- ask is_game_over ;;
  if game_over then
    checkmate <- ask is_checkmate ;;
    if checkmate then
      if color then ret (- ((max_score + inject_Z depth) / max_score))%Q
      else ret ((max_score - inject_Z depth) / max_score)%Q
    else ret 0%Q
  else if (depth =? max_depth)%Z then
    ask evaluator
  else if color then
    moves <- ask legal_moves ;;
    for_each moves (- max_score)%Q (fun best_score move =>
      update (fun b => push b move) ;;
      side <- ask turn ;;
      v <- recur (depth + 1)%Z max_depth side ;;
      let best_score' := py_max best_score v in
      update pop ;;
      ret best_score')
  else
    moves <- ask legal_moves ;;
    for_each moves max_score (fun best_score move =>
      update (fun b => push b move) ;;
      side <- ask turn ;;
      v <- recur (depth + 1)%Z max_depth side ;;
      let best_score' := py_min best_score v in
      update pop ;;
      ret best_score').

(** [probabilistic_minimax(board, proba_depth, min_proba_depth, color,
    evaluator)].  The quotient [proba_depth/num_moves] is an argument of the
    recursive call, so it is evaluated inside the loop body, after the
    push. *)
Fixpoint probabilistic_minimax (fuel : nat) (proba_depth min_proba_depth : Score)
         (color : bool) (evaluator : Evaluator) {struct fuel} : Py Board Score :=
  let recur (p mp : Score) (c : bool) : Py Board Score :=
    match fuel with
    | O => out_of_fuel
    | S fuel' => probabilistic_minimax fuel' p mp c evaluator
    end in
  game_over <- ask is_game_over ;;
  if game_over then
    checkmate <- ask is_checkmate ;;
    if checkmate then
      if color then ret (- max_score / max_score)%Q
      else ret (max_score / max_score)%Q
    else ret 0%Q
  else if Qltb proba_depth min_proba_depth then
    ask evaluator
  else if color then
    num_moves <- ask (fun b => Z.of_nat (length (legal_moves b))) ;;
    moves <- ask legal_moves ;;
    for_each moves (- max_score)%Q (fun best_score move =>
      update (fun b => push b move) ;;
      p <- lift (py_div proba_depth num_moves) ;;
      side <- ask turn ;;
      v <- recur p min_proba_depth side ;;
      let best_score' := py_max best_score v in
      update pop ;;
      ret best_score')
  else
    num_moves <- ask (fun b => Z.of_nat (length (legal_moves b))) ;;
    moves <- ask legal_moves ;;
    for_each moves max_score (fun best_score move =>
      update (fun b => push b move) ;;
      p <- lift (py_div proba_depth num_moves) ;;
      side <- ask turn ;;
      v <- recur p min_proba_depth side ;;
      let best_score' := py_min best_score v in
      update pop ;;
      ret best_score').

(** [find_best_move(board, max_depth, evaluator)].  The loop carries the
    pair [(best_move, best_score)]; [board.turn] is read again after each
    pop.  [fuel] is the fuel of each [minimax] call.  The final wrapping of
    a plain number into a tensor keeps its value and is not modelled. *)
Definition find_best_move (fuel : nat) (max_depth : Z) (evaluator : Evaluator)
  : Py Board (option Move * Score) :=
  let best_move : option Move := None in
  root_side <- ask turn ;;
  let best_score := if root_side then (- max_score)%Q else max_score in
  num_moves <- ask (fun b => length (legal_moves b)) ;;
  if (0 <? num_moves)%nat then
    moves <- ask legal_moves ;;
    for_each moves (best_move, best_score) (fun best move =>
      update (fun b => push b move) ;;
      side <- ask turn ;;
      score <- minimax fuel 0 max_depth side evaluator ;;
      update pop ;;
      side' <- ask turn ;;
      if side' then
        if Qltb (snd best) score then ret (Some move, score) else ret best
      else
        if Qltb score (snd best) then ret (Some move, score) else ret best)
  else
    ret (best_move, (best_score / max_score)%Q).

(** *** The self-play loop of the main block *)

(** The tally [score_board = {'White': 0, 'Black': 0}]. *)
Record score_board : Type := { White : Q; Black : Q }.

(** [board.push(move)] with the value the selector returned.  The board of
    the [chess] package reads the fields of the move it is given, so a
    [None] raises [AttributeError] before the board changes. *)
Definition push_selected (move : option Move) : Py Board unit :=
  match move with
  | Some m => update (fun b => push b m)
  | None => raise AttributeError
  end.

(** The loop [while not board.is_game_over():] of one game: the selector
    is called at depth 1 with the evaluator of the side to move and the
    move it returns is pushed.  [plies] bounds the number of iterations. *)
Fixpoint play_game (plies : nat) (white_eval black_eval : Evaluator)
  : Py Board unit :=
  game_over <- ask is_game_over ;;
  if game_over then ret tt
  else
    match plies with
    | O => out_of_fuel
    | S plies' =>
        side <- ask turn ;;
        found <- find_best_move 1 1 (if side then white_eval else black_eval) ;;
        push_selected (fst found) ;;
        play_game plies' white_eval black_eval
    end.

(** The block [if board.is_game_over():] after the loop: the outcome is
    added to the tally and the board is reset. *)
Definition classify (tally : score_board) : Py Board score_board :=
  game_over <- ask is_game_over ;;
  if game_over then
    checkmate <- ask is_checkmate ;;
    tally' <- (if checkmate then
                 side <- ask turn ;;
                 if side
                 then ret {| White := White tally; Black := (Black tally + 1)%Q |}
                 else ret {| White := (White tally + 1)%Q; Black := Black tally |}
               else
                 ret {| White := (White tally + (1 # 2))%Q;
                        Black := (Black tally + (1 # 2))%Q |}) ;;
    update reset ;;
    ret tally'
  else ret tally.

(** [for i in range(num_games):] around both. *)
Fixpoint self_play (num_games plies : nat) (white_eval black_eval : Evaluator)
         (tally : score_board) : Py Board score_board :=
  match num_games with
  | O => ret tally
  | S games' =>
      play_game plies white_eval black_eval ;;
      tally' <- classify tally ;;
      self_play games' plies white_eval black_eval tally'
  end.

End Search.

(** ** A scripted board

    A board whose positions are the nodes of an explicit finite tree: each
    node says whether it is game over, whether it is checkmate and whose
    turn it is, and its legal moves are the indices of its children.  The
    board keeps the positions it came through on a stack, as the [chess]
    board does. *)

Module Scripted.

#[local] Unset Elimination Schemes.
Inductive position : Type :=
| Node (over mate white : bool) (next : list position).
#[local] Set Elimination Schemes.

Definition next_of (p : position) : list position :=
  match p with Node _ _ _ next => next end.

Record board : Type := { here : position; stack : list position }.

Definition start (p : position) : board := {| here := p; stack := [] |}.

#[global] Instance api : BoardAPI board nat := {
  legal_moves b := seq 0 (length (next_of (here b)));
  push b m := {| here := nth m (next_of (here b)) (here b);
                 stack := here b :: stack b |};
  pop b := match stack b with
           | p :: rest => {| here := p; stack := rest |}
           | [] => b
           end;
  turn b := match here b with Node _ _ white _ => white end;
  is_game_over b := match here b with Node over _ _ _ => over end;
  is_checkmate b := match here b with Node _ mate _ _ => mate end;
  reset b := match rev (here b :: stack b) with
             | p :: _ => start p
             | [] => b
             end
}.

(** Positions used below. *)
Definition draw_leaf : position := Node true false true [].
Definition mated_white : position := Node true true true [].
Definition mated_black : position := Node true true false [].
Definition open_leaf (white : bool) : position := Node false false white [draw_leaf].
Definition stuck (white : bool) : position := Node false false white [].

End Scripted.

(** ** Vocabulary of the statements *)

Section Vocabulary.
Context {Board Move : Type} `{API : BoardAPI Board Move}.

(** What a recursive call of [minimax] stands for at a given fuel. *)
Definition minimax_call (fuel : nat) (evaluator : Board -> Score)
           (d md : Z) (c : bool) : Py Board Score :=
  match fuel with
  | O => out_of_fuel
  | S fuel' => minimax fuel' d md c evaluator
  end.

(** The same for [probabilistic_minimax]. *)
Definition probabilistic_call (fuel : nat) (evaluator : Board -> Score)
           (p mp : Score) (c : bool) : Py Board Score :=
  match fuel with
  | O => out_of_fuel
  | S fuel' => probabilistic_minimax fuel' p mp c evaluator
  end.

(** The value [best_score] starts from: [-max_score] for White, [max_score]
    for Black. *)
Definition initial_best (color : bool) : Score :=
  if color then (- max_score)%Q else max_score.

(** The accumulation of the loop: [max] for White, [min] for Black. *)
Definition accumulate (color : bool) : Score -> Score -> Score :=
  if color then py_max else py_min.

(** One turn of a search loop: push the move, search the child with the
    side the board then reports, fold the result in, pop. *)
Definition visit (call : bool -> Py Board Score) (f : Score -> Score -> Score)
           (best_score : Score) (move : Move) : Py Board Score :=
  update (fun b => push b move) ;;
  side <- ask turn ;;
  v <- call side ;;
  let best_score' := f best_score v in
  update pop ;;
  ret best_score'.

(** The result of folding a list of child scores into the initial value. *)
Definition combined (color : bool) (scores : list Score) : Score :=
  fold_left (accumulate color) scores (initial_best color).

(** The test of the selector: [score > best_score] for White,
    [score < best_score] for Black. *)
Definition improves (side : bool) (score best_score : Score) : bool :=
  if side then Qltb best_score score else Qltb score best_score.

(** The update of the selector for one move and its score. *)
Definition select (side : bool) (best : option Move * Score)
           (scored : Move * Score) : option Move * Score :=
  if improves side (snd scored) (snd best)
  then (Some (fst scored), snd scored) else best.

(** One turn of the selector's loop: push the move, search below it from
    depth 0, pop, and compare on behalf of the side the board then
    reports. *)
Definition consider (fuel : nat) (max_depth : Z) (evaluator : Board -> Score)
           (best : option Move * Score) (move : Move)
  : Py Board (option Move * Score) :=
  update (fun b => push b move) ;;
  side <- ask turn ;;
  score <- minimax fuel 0 max_depth side evaluator ;;
  update pop ;;
  side' <- ask turn ;;
  ret (select side' best (move, score)).

(** [move] is the first move, in enumeration order, whose score equals
    [best]. *)
Definition first_with_score (moves : list Move) (scores : list Score)
           (best : Score) (move : Move) : Prop :=
  exists i s,
    nth_error moves i = Some move /\ nth_error scores i = Some s /\
    (s == best)%Q /\
    forall j s', (j < i)%nat -> nth_error scores j = Some s' -> ~ (s' == best)%Q.

(** Down to [n] plies below [b], every position that is not reported game
    over has a legal move. *)
Fixpoint moves_exist (n : nat) (b : Board) : bool :=
  is_game_over b ||
  match n with
  | O => true
  | S n' =>
      match legal_moves b with
      | [] => false
      | moves => forallb (fun m => moves_exist n' (push b m)) moves
      end
  end.

End Vocabulary.

(** Strictly between [-max_score] and [max_score]. *)
Definition inside (v : Score) : Prop := (- max_score < v /\ v < max_score)%Q.

(** ** A board that records the calls made on it

    To state that pushes and pops come in pairs, any board is wrapped into
    one that appends every [push] and every [pop] to a log and otherwise
    behaves as the board it wraps. *)

Inductive event (Move : Type) : Type :=
| Made (m : Move)
| Unmade.

Arguments Made {Move} m.
Arguments Unmade {Move}.

Section Recording.
Context {Board Move : Type} `{API : BoardAPI Board Move}.

Definition recorded : Type := Board * list (event Move).

Definition recording : BoardAPI recorded Move := {|
  legal_moves rb := legal_moves (fst rb);
  push rb m := (push (fst rb) m, snd rb ++ [Made m]);
  pop rb := (pop (fst rb), snd rb ++ [Unmade]);
  turn rb := turn (fst rb);
  is_game_over rb := is_game_over (fst rb);
  is_checkmate rb := is_checkmate (fst rb);
  reset rb := (reset (fst rb), snd rb)
|}.

(** Reading a log in order with the stack of the moves that are made and
    not yet unmade: a [pop] undoes the latest of them, and fails when there
    is none. *)
Fixpoint replay (log : list (event Move)) (made : list Move) : option (list Move) :=
  match log with
  | [] => Some made
  | Made m :: rest => replay rest (m :: made)
  | Unmade :: rest =>
      match made with
      | [] => None
      | _ :: earlier => replay rest earlier
      end
  end.

(** Every push of the log is undone by a later pop, last made first
    unmade, and no pop comes without its push. *)
Definition well_paired (log : list (event Move)) : Prop :=
  forall made, replay log made = Some made.

End Recording.

Arguments recorded Board Move : clear implicits.

(** ** The material evaluator

    [naive_evaluation] reads the piece placement of the board as a string
    and asks for the castling rights of each side; these two operations of
    the board are taken as a second interface. *)

Class FenAPI (Board : Type) : Type := {
  board_fen : Board -> String.string;
  has_castling_rights : Board -> bool -> bool
}.

(** The dictionary [value_map] of the function, in the order it is
    written. *)
Definition value_map : list (Ascii.ascii * Z) :=
  [("P"%char, 1%Z); ("N"%char, 3%Z); ("B"%char, 3%Z); ("R"%char, 5%Z);
   ("Q"%char, 9%Z); ("K"%char, 0%Z);
   ("p"%char, (-1)%Z); ("n"%char, (-3)%Z); ("b"%char, (-3)%Z); ("r"%char, (-5)%Z);
   ("q"%char, (-9)%Z); ("k"%char, 0%Z)].

(** Looking a key up in a dictionary: [None] when the key is not in it. *)
Fixpoint dict_get (d : list (Ascii.ascii * Z)) (key : Ascii.ascii) : option Z :=
  match d with
  | [] => None
  | (k, v) :: rest => if Ascii.eqb key k then Some v else dict_get rest key
  end.

(** [val_max = 22.0]. *)
Definition val_max : Q := 22 # 1.

(** The sum the loop [for char in board.board_fen():] leaves in [val]. *)
Definition count_pieces (fen : list Ascii.ascii) : Z :=
  fold_left (fun val char =>
               match dict_get value_map char with
               | Some v => (val + v)%Z
               | None => val
               end) fen 0%Z.

(** [naive_evaluation(board)]. *)
Definition naive_evaluation {Board : Type} `{FenAPI Board} (board : Board) : Score :=
  let val := count_pieces (String.list_ascii_of_string (board_fen board)) in
  let val := if has_castling_rights board true then (val + 1)%Z else val in
  let val := if has_castling_rights board false then (val - 1)%Z else val in
  (inject_Z val / val_max)%Q.

(** Python's [str.swapcase] on one character of a placement string: an
    upper-case letter becomes the lower-case one and back, anything else
    stays. *)
Definition swapcase (c : Ascii.ascii) : Ascii.ascii :=
  let n := Ascii.nat_of_ascii c in
  if (65 <=? n)%nat && (n <=? 90)%nat then Ascii.ascii_of_nat (n + 32)
  else if (97 <=? n)%nat && (n <=? 122)%nat then Ascii.ascii_of_nat (n - 32)
  else c.

(** A board given by its placement string and its two castling rights. *)
Module Diagram.

Record board : Type := {
  fen : String.string;
  white_castles : bool;
  black_castles : bool
}.

#[global] Instance api : FenAPI board := {
  board_fen b := fen b;
  has_castling_rights b color := if color then white_castles b else black_castles b
}.

(** The placement of the starting position. *)
Definition starting : board :=
  {| fen := "rnbqkbnr/pppppppp/8/8/8/8/PPPPPPPP/RNBQKBNR"%string;
     white_castles := true; black_castles := true |}.

(** White is a rook up and Black has lost the right to castle. *)
Definition rook_up : board :=
  {| fen := "1nbqkbnr/pppppppp/8/8/8/8/PPPPPPPP/RNBQKBNR"%string;
     white_castles := true; black_castles := false |}.

(** The same pieces with the ranks in reverse order. *)
Definition rook_up_flipped : board :=
  {| fen := "RNBQKBNR/PPPPPPPP/8/8/8/8/pppppppp/1nbqkbnr"%string;
     white_castles := true; black_castles := false |}.

(** The same with the colours exchanged and the ranks in reverse order. *)
Definition rook_down : board :=
  {| fen := "rnbqkbnr/pppppppp/8/8/8/8/PPPPPPPP/1NBQKBNR"%string;
     white_castles := false; black_castles := true |}.

End Diagram.

(** ** A board with one legal move everywhere

    The positions are the numbers of moves made; every position has the
    single move [tt], none is game over, and the sides alternate. *)
Module Corridor.

#[global] Instance api : BoardAPI nat unit := {
  legal_moves _ := [tt];
  push n _ := S n;
  pop n := Nat.pred n;
  turn n := Nat.even n;
  is_game_over _ := false;
  is_checkmate _ := false;
  reset _ := 0%nat
}.

(** Its placement string: the two kings, and a white pawn after an odd
    number of moves; no side may castle. *)
#[global] Instance pieces : FenAPI nat := {
  board_fen n := if Nat.even n then "K6k"%string else "K5Pk"%string;
  has_castling_rights _ _ := false
}.

End Corridor.

(** ** A board with two legal moves everywhere

    The positions are the lists of the moves made, latest first; every
    position has the two moves [false] and [true], the sides alternate, and
    the game is over after three moves, by checkmate when the last move was
    [true]. *)
Module Fork.

#[global] Instance api : BoardAPI (list bool) bool := {
  legal_moves _ := [false; true];
  push made m := m :: made;
  pop made := tl made;
  turn made := Nat.even (length made);
  is_game_over made := (3 <=? length made)%nat;
  is_checkmate made := hd false made;
  reset _ := []
}.

End Fork.

(** * Properties *)

(** ** Comparisons and accumulation *)

Lemma Qltb_lt (a b : Q) : Qltb a b = true <-> (a < b)%Q.
Proof.
  unfold Qltb. rewrite negb_true_iff, <- not_true_iff_false, Qle_bool_iff.
  split; [apply Qnot_le_lt | apply Qlt_not_le].
Qed.

Lemma Qltb_ge (a b : Q) : Qltb a b = false <-> (b <= a)%Q.
Proof.
  unfold Qltb. rewrite negb_false_iff. apply Qle_bool_iff.
Qed.

Lemma py_max_cases (a b : Score) :
  ((a < b)%Q /\ py_max a b = b) \/ ((b <= a)%Q /\ py_max a b = a).
Proof.
  unfold py_max. destruct (Qltb a b) eqn:E.
  - left. split; [now apply Qltb_lt | reflexivity].
  - right. split; [now apply Qltb_ge | reflexivity].
Qed.

Lemma py_min_cases (a b : Score) :
  ((b < a)%Q /\ py_min a b = b) \/ ((a <= b)%Q /\ py_min a b = a).
Proof.
  unfold py_min. destruct (Qltb b a) eqn:E.
  - left. split; [now apply Qltb_lt | reflexivity].
  - right. split; [now apply Qltb_ge | reflexivity].
Qed.

(** ** Loops *)

Section Loops.
Context {Board X A : Type}.
Implicit Types (xs : list X) (body : A -> X -> Py Board A) (b : Board).

(** Two bodies that agree on every board give the same loop. *)
Lemma for_each_ext xs body1 body2 :
  (forall acc x b, In x xs -> body1 acc x b = body2 acc x b) ->
  forall acc b, for_each xs acc body1 b = for_each xs acc body2 b.
Proof.
  induction xs as [|x rest IH]; intros Hagree acc b; cbn.
  - reflexivity.
  - unfold bind. rewrite (Hagree acc x b) by (now left).
    destruct (body2 acc x b) as [[a| |] b']; try reflexivity.
    apply IH. intros; apply Hagree; now right.
Qed.

(** A loop whose turns each give the board back gives the board back. *)
Lemma for_each_frame xs body b :
  (forall acc x r b', In x xs -> body acc x b = (Ret r, b') -> b' = b) ->
  forall acc r b', for_each xs acc body b = (Ret r, b') -> b' = b.
Proof.
  induction xs as [|x rest IH]; intros Hbody acc r b'; cbn.
  - unfold ret. now intros [= _ <-].
  - unfold bind. destruct (body acc x b) as [[a| |] b1] eqn:E; try discriminate.
    assert (b1 = b) as -> by (eapply Hbody; [now left | exact E]).
    apply IH. intros; eapply Hbody; [right|]; eassumption.
Qed.

(** A loop whose turns each return on [b], restoring it, is a fold. *)
Lemma for_each_fold {V} xs body b (f : A -> V -> A) (vs : list V) :
  Forall2 (fun x v => forall acc, body acc x b = (Ret (f acc v), b)) xs vs ->
  forall acc, for_each xs acc body b = (Ret (fold_left f vs acc), b).
Proof.
  induction 1 as [|x v rest vs' Hx _ IH]; intros acc; cbn.
  - reflexivity.
  - unfold bind. rewrite Hx. apply IH.
Qed.

(** An invariant of the accumulator that every turn establishes. *)
Lemma for_each_invariant xs body b (Q0 Q1 : A -> Prop) :
  (forall acc x, In x xs -> Q0 acc \/ Q1 acc ->
                 exists acc', body acc x b = (Ret acc', b) /\ Q1 acc') ->
  forall acc, Q0 acc ->
    exists r, for_each xs acc body b = (Ret r, b) /\
              (xs = [] -> r = acc) /\ (xs <> [] -> Q1 r).
Proof.
  intros Hbody acc H0.
  assert (forall xs', incl xs' xs -> forall a, Q0 a \/ Q1 a ->
            exists r, for_each xs' a body b = (Ret r, b) /\
                      (xs' = [] -> r = a) /\ (xs' <> [] -> Q1 r)) as Hgen.
  { induction xs' as [|x rest IH]; intros Hincl a Ha; cbn.
    - exists a. repeat split; try reflexivity; congruence.
    - destruct (Hbody a x) as [a' [Ea Ha']]; [apply Hincl; now left | exact Ha |].
      destruct (IH (fun y Hy => Hincl y (or_intror Hy)) a' (or_intror Ha'))
        as [r [Er [Hnil Hcons]]].
      exists r. unfold bind. rewrite Ea. repeat split;
        [exact Er | discriminate | intros _].
      destruct rest; [now rewrite Hnil | apply Hcons; discriminate]. }
  apply Hgen; [apply incl_refl | now left].
Qed.
End Loops.

(** ** One function call at a time *)

Section Calls.
Context {Board Move : Type} `{API : BoardAPI Board Move}.
Implicit Types (b : Board) (evaluator : Board -> Score).

Lemma minimax_terminal fuel depth max_depth color evaluator b :
  is_game_over b = true ->
  minimax fuel depth max_depth color evaluator b =
  (Ret (if is_checkmate b
        then if color then (- ((max_score + inject_Z depth) / max_score))%Q
             else ((max_score - inject_Z depth) / max_score)%Q
        else 0%Q), b).
Proof.
  intros Hover.
  destruct fuel; cbn; unfold bind, ask; rewrite Hover;
    destruct (is_checkmate b), color; reflexivity.
Qed.

Lemma probabilistic_terminal fuel p mp color evaluator b :
  is_game_over b = true ->
  probabilistic_minimax fuel p mp color evaluator b =
  (Ret (if is_checkmate b
        then if color then (- max_score / max_score)%Q
             else (max_score / max_score)%Q
        else 0%Q), b).
Proof.
  intros Hover.
  destruct fuel; cbn; unfold bind, ask; rewrite Hover;
    destruct (is_checkmate b), color; reflexivity.
Qed.

Lemma minimax_frontier fuel d color evaluator b :
  is_game_over b = false ->
  minimax fuel d d color evaluator b = (Ret (evaluator b), b).
Proof.
  intros Hover.
  destruct fuel; cbn; unfold bind, ask; rewrite Hover, Z.eqb_refl; reflexivity.
Qed.

Lemma probabilistic_frontier fuel p mp color evaluator b :
  is_game_over b = false -> Qltb p mp = true ->
  probabilistic_minimax fuel p mp color evaluator b = (Ret (evaluator b), b).
Proof.
  intros Hover Hlt.
  destruct fuel; cbn; unfold bind, ask; rewrite Hover, Hlt; reflexivity.
Qed.

(** Below the limit, [minimax] is its loop over the legal moves. *)
Lemma minimax_expand fuel depth max_depth color evaluator b :
  is_game_over b = false -> (depth =? max_depth)%Z = false ->
  minimax fuel depth max_depth color evaluator b =
  for_each (legal_moves b) (initial_best color)
    (visit (minimax_call fuel evaluator (depth + 1) max_depth) (accumulate color)) b.
Proof.
  intros Hover Hlimit.
  destruct fuel, color; cbn; unfold bind, ask; rewrite Hover, Hlimit; reflexivity.
Qed.

(** Above the threshold, [probabilistic_minimax] is its loop, each child
    called with the quotient of the budget by the number of moves. *)
Lemma probabilistic_expand fuel p mp color evaluator b :
  is_game_over b = false -> Qltb p mp = false ->
  probabilistic_minimax fuel p mp color evaluator b =
  for_each (legal_moves b) (initial_best color)
    (visit (fun side =>
              p' <- lift (py_div p (Z.of_nat (length (legal_moves b)))) ;;
              probabilistic_call fuel evaluator p' mp side)
           (accumulate color)) b.
Proof.
  intros Hover Hthreshold.
  destruct fuel, color; cbn; unfold bind at 1 2 3, ask; rewrite Hover, Hthreshold;
    apply for_each_ext; intros acc x b' _;
    unfold visit, bind, update, ask, lift;
    destruct (py_div p (Z.of_nat (length (legal_moves b)))); reflexivity.
Qed.

(** What one turn of a loop does to the board and to the accumulator. *)
Lemma visit_run (call : bool -> Py Board Score) f best (m : Move) b :
  visit call f best m b =
  match call (turn (push b m)) (push b m) with
  | (Ret v, b') => (Ret (f best v), pop b')
  | (Raise e, b') => (Raise e, b')
  | (OutOfFuel, b') => (OutOfFuel, b')
  end.
Proof.
  unfold visit, bind, update, ask, ret.
  destruct (call (turn (push b m)) (push b m)) as [[v| |] b']; reflexivity.
Qed.

Lemma visit_returns (call : bool -> Py Board Score) f best (m : Move) b v :
  pop (push b m) = b ->
  call (turn (push b m)) (push b m) = (Ret v, push b m) ->
  visit call f best m b = (Ret (f best v), b).
Proof. intros Hpop Hcall. rewrite visit_run, Hcall, Hpop. reflexivity. Qed.

Lemma visit_inversion (call : bool -> Py Board Score) f best (m : Move) b r b' :
  pop (push b m) = b ->
  (forall v b1, call (turn (push b m)) (push b m) = (Ret v, b1) -> b1 = push b m) ->
  visit call f best m b = (Ret r, b') ->
  b' = b /\ exists v, fst (call (turn (push b m)) (push b m)) = Ret v /\ r = f best v.
Proof.
  intros Hpop Hframe. rewrite visit_run.
  destruct (call (turn (push b m)) (push b m)) as [[v| |] b1] eqn:E; try discriminate.
  intros [= <- <-]. rewrite (Hframe v b1 eq_refl), Hpop.
  split; [reflexivity | now exists v].
Qed.

End Calls.

(** ** The board after a search *)

Section Frame.
Context {Board Move : Type} `{API : BoardAPI Board Move}.
Implicit Types (b : Board) (evaluator : Board -> Score).
Hypothesis paired : make_unmake_paired.

Lemma minimax_frame fuel :
  forall depth max_depth color evaluator b v b',
    minimax fuel depth max_depth color evaluator b = (Ret v, b') -> b' = b.
Proof.
  induction fuel as [|fuel IH]; intros depth max_depth color evaluator b v b';
    (destruct (is_game_over b) eqn:Hover;
     [ rewrite minimax_terminal by assumption; now intros [= _ <-] | ];
     destruct (depth =? max_depth)%Z eqn:Hlimit;
     [ apply Z.eqb_eq in Hlimit; subst;
       rewrite minimax_frontier by assumption; now intros [= _ <-] | ];
     rewrite minimax_expand by assumption;
     apply for_each_frame; intros acc m r b1 Hm Hvisit;
     apply visit_inversion in Hvisit; [tauto | now apply paired | ]).
  - discriminate.
  - cbn. intros v1 b2. apply IH.
Qed.

Lemma probabilistic_frame fuel :
  forall p mp color evaluator b v b',
    probabilistic_minimax fuel p mp color evaluator b = (Ret v, b') -> b' = b.
Proof.
  induction fuel as [|fuel IH]; intros p mp color evaluator b v b';
    (destruct (is_game_over b) eqn:Hover;
     [ rewrite probabilistic_terminal by assumption; now intros [= _ <-] | ];
     destruct (Qltb p mp) eqn:Hthreshold;
     [ rewrite probabilistic_frontier by assumption; now intros [= _ <-] | ];
     rewrite probabilistic_expand by assumption;
     apply for_each_frame; intros acc m r b1 Hm Hvisit;
     apply visit_inversion in Hvisit; [tauto | now apply paired | ];
     intros v1 b2; unfold bind, lift;
     destruct (py_div p (Z.of_nat (length (legal_moves b)))); try discriminate).
  cbn. apply IH.
Qed.

(** With a legal move at the root, the selector is its loop. *)
Lemma find_best_move_expand fuel max_depth evaluator b :
  legal_moves b <> [] ->
  find_best_move fuel max_depth evaluator b =
  for_each (legal_moves b) (None, initial_best (turn b))
           (consider fuel max_depth evaluator) b.
Proof.
  intros Hmoves. unfold find_best_move, bind at 1 2, ask.
  destruct (legal_moves b) as [|m rest] eqn:E; [congruence|].
  cbn [length Nat.ltb Nat.leb]. unfold bind at 1. rewrite E.
  apply for_each_ext. intros acc x b1 _.
  unfold consider, select, improves, bind, update, ask, ret. cbn [fst snd].
  destruct (minimax fuel 0 max_depth (turn (push b1 x)) evaluator (push b1 x))
    as [[s| |] b2]; try reflexivity.
  destruct acc as [best_move best_score]. cbn.
  destruct (turn (pop b2)); [destruct (Qltb best_score s) | destruct (Qltb s best_score)];
    reflexivity.
Qed.

Lemma consider_run fuel max_depth evaluator best (m : Move) b :
  In m (legal_moves b) ->
  consider fuel max_depth evaluator best m b =
  match minimax fuel 0 max_depth (turn (push b m)) evaluator (push b m) with
  | (Ret s, _) => (Ret (select (turn b) best (m, s)), b)
  | (Raise e, b') => (Raise e, b')
  | (OutOfFuel, b') => (OutOfFuel, b')
  end.
Proof.
  intros Hm. unfold consider, bind, update, ask, ret.
  destruct (minimax fuel 0 max_depth (turn (push b m)) evaluator (push b m))
    as [[s| |] b'] eqn:E; try reflexivity.
  apply minimax_frame in E. subst b'. now rewrite paired.
Qed.

Lemma find_best_move_frame fuel max_depth evaluator b r b' :
  find_best_move fuel max_depth evaluator b = (Ret r, b') -> b' = b.
Proof.
  destruct (legal_moves b) as [|m0 rest] eqn:E.
  - unfold find_best_move, bind, ask, ret. rewrite E. cbn. now intros [= _ <-].
  - rewrite find_best_move_expand by congruence.
    apply for_each_frame. intros acc m r1 b1 Hm. rewrite consider_run by assumption.
    destruct (minimax fuel 0 max_depth (turn (push b m)) evaluator (push b m))
      as [[s| |] b2]; try discriminate.
    now intros [= _ <-].
Qed.

End Frame.

(** ** The scripted board keeps the make/unmake contract *)

Lemma Scripted_paired : make_unmake_paired (Board := Scripted.board).
Proof. intros [p st] m _. reflexivity. Qed.

(** ** Terminal positions and the search frontier *)

Section Terminal.
Context {Board Move : Type} `{API : BoardAPI Board Move}.
Implicit Types (b : Board) (evaluator : Board -> Score).

(** C1.  On a position reported game over by checkmate, [minimax] returns
    [-(max_score + depth)/max_score] when called for the maximizing side
    and [(max_score - depth)/max_score] otherwise, with [max_score] equal to
    10000; this holds at every depth and with any fuel, and the board is
    untouched. *)
Theorem minimax_checkmate_score fuel depth max_depth color evaluator b :
  is_game_over b = true -> is_checkmate b = true ->
  minimax fuel depth max_depth color evaluator b =
  (Ret (if color then (- ((max_score + inject_Z depth) / max_score))%Q
        else ((max_score - inject_Z depth) / max_score)%Q), b)
  /\ max_score = inject_Z 10000.
Proof.
  intros Hover Hmate. split; [|reflexivity].
  rewrite minimax_terminal by assumption. now rewrite Hmate.
Qed.

(** C2, amended.  On a position that is not reported game over,
    [minimax] called with [depth] equal to [max_depth] returns exactly what
    the evaluator gives for the position. *)
Theorem minimax_at_limit_evaluates fuel d color evaluator b :
  is_game_over b = false ->
  minimax fuel d d color evaluator b = (Ret (evaluator b), b).
Proof. apply minimax_frontier. Qed.

(** C9.  On a position reported game over but not checkmate, both searches
    return exactly 0, whatever the depth, the budget, the side and the
    evaluator. *)
Theorem draw_scores_zero b :
  is_game_over b = true -> is_checkmate b = false ->
  (forall fuel depth max_depth color evaluator,
      minimax fuel depth max_depth color evaluator b = (Ret 0%Q, b)) /\
  (forall fuel proba_depth min_proba_depth color evaluator,
      probabilistic_minimax fuel proba_depth min_proba_depth color evaluator b
      = (Ret 0%Q, b)).
Proof.
  intros Hover Hmate. split; intros.
  - rewrite minimax_terminal by assumption. now rewrite Hmate.
  - rewrite probabilistic_terminal by assumption. now rewrite Hmate.
Qed.

(** C10.  On a position that is not reported game over, with a budget
    that is not below the threshold and with no legal move,
    [probabilistic_minimax] returns the initial value of [best_score]
    itself, -10000 for the maximizing side and 10000 otherwise; the quotient
    of the budget by the number of moves, which would raise
    [ZeroDivisionError] there, is not evaluated. *)
Theorem probabilistic_minimax_no_moves fuel proba_depth min_proba_depth color
        evaluator b :
  is_game_over b = false ->
  (min_proba_depth <= proba_depth)%Q ->
  legal_moves b = [] ->
  probabilistic_minimax fuel proba_depth min_proba_depth color evaluator b =
  (Ret (if color then inject_Z (-10000) else inject_Z 10000), b) /\
  py_div proba_depth (Z.of_nat (length (legal_moves b))) = Raise ZeroDivisionError.
Proof.
  intros Hover Hbudget Hmoves. apply Qltb_ge in Hbudget.
  rewrite probabilistic_expand by assumption. rewrite Hmoves.
  split; [destruct color|]; reflexivity.
Qed.

(** C5.  At a root with no legal move the selector returns normally, with
    no move and with the initial value of [best_score] divided by
    [max_score]: -1 when the root side maximizes, +1 otherwise. *)
Theorem find_best_move_no_moves fuel max_depth evaluator b :
  legal_moves b = [] ->
  find_best_move fuel max_depth evaluator b =
  (Ret (None, ((if turn b then - max_score else max_score) / max_score)%Q), b) /\
  ((if turn b then - max_score else max_score) / max_score
   == if turn b then - (1) else 1)%Q.
Proof.
  intros Hmoves. split.
  - unfold find_best_move, bind, ask, ret. rewrite Hmoves. reflexivity.
  - destruct (turn b); reflexivity.
Qed.

End Terminal.

Lemma minimax_checkmate_score_witness :
  minimax 0 3 5 true (fun _ => 0%Q) (Scripted.start Scripted.mated_white) =
  (Ret (- ((max_score + inject_Z 3) / max_score))%Q,
   Scripted.start Scripted.mated_white)
  /\ max_score = inject_Z 10000.
Proof.
  apply (minimax_checkmate_score 0 3 5 true (fun _ => 0%Q)
           (Scripted.start Scripted.mated_white)); reflexivity.
Defined.

Lemma minimax_at_limit_evaluates_witness :
  minimax 0 2 2 false (fun _ => 1 # 4)
          (Scripted.start (Scripted.open_leaf false)) =
  (Ret (1 # 4), Scripted.start (Scripted.open_leaf false)).
Proof.
  apply (minimax_at_limit_evaluates 0 2 false (fun _ => 1 # 4)
           (Scripted.start (Scripted.open_leaf false))); reflexivity.
Defined.

(** C2, as stated, fails on a position that is game over: the terminal
    score is returned and the evaluator is not consulted.  Here a drawn
    position scores 0 under an evaluator that gives 1 everywhere. *)
Lemma minimax_at_limit_terminal_counterexample :
  ~ (forall (b : Scripted.board) (d : Z) (color : bool)
            (evaluator : Scripted.board -> Score) (fuel : nat),
        fst (minimax fuel d d color evaluator b) = Ret (evaluator b)).
Proof.
  intros Hclaim.
  specialize (Hclaim (Scripted.start Scripted.draw_leaf) 0%Z true (fun _ => 1%Q) 0%nat).
  cbn in Hclaim. discriminate Hclaim.
Qed.

Lemma draw_scores_zero_witness :
  (forall fuel depth max_depth color evaluator,
      minimax fuel depth max_depth color evaluator
              (Scripted.start Scripted.draw_leaf)
      = (Ret 0%Q, Scripted.start Scripted.draw_leaf)) /\
  (forall fuel proba_depth min_proba_depth color evaluator,
      probabilistic_minimax fuel proba_depth min_proba_depth color evaluator
                            (Scripted.start Scripted.draw_leaf)
      = (Ret 0%Q, Scripted.start Scripted.draw_leaf)).
Proof.
  apply (draw_scores_zero (Scripted.start Scripted.draw_leaf)); reflexivity.
Defined.

Lemma probabilistic_minimax_no_moves_witness :
  probabilistic_minimax 0 1 (1 # 100) true (fun _ => 0%Q)
                        (Scripted.start (Scripted.stuck true)) =
  (Ret (inject_Z (-10000)), Scripted.start (Scripted.stuck true)) /\
  py_div 1 (Z.of_nat (length (legal_moves (Scripted.start (Scripted.stuck true)))))
  = Raise ZeroDivisionError.
Proof.
  apply (probabilistic_minimax_no_moves 0 1 (1 # 100) true (fun _ => 0%Q)
           (Scripted.start (Scripted.stuck true)));
    [reflexivity | discriminate | reflexivity].
Defined.

Lemma find_best_move_no_moves_witness :
  find_best_move 0 1 (fun _ => 0%Q) (Scripted.start (Scripted.stuck false)) =
  (Ret (None, (max_score / max_score)%Q), Scripted.start (Scripted.stuck false)) /\
  (max_score / max_score == 1)%Q.
Proof.
  exact (find_best_move_no_moves 0 1 (fun _ => 0%Q)
           (Scripted.start (Scripted.stuck false)) eq_refl).
Defined.

(** ** Scores inside the initial values *)

Lemma accumulate_first (color : bool) (v : Score) :
  inside v -> accumulate color (initial_best color) v = v.
Proof.
  intros [Hlo Hhi]. destruct color; cbn.
  - destruct (py_max_cases (- max_score) v) as [[_ E]|[Hle _]]; [exact E | lra].
  - destruct (py_min_cases max_score v) as [[_ E]|[Hle _]]; [exact E | lra].
Qed.

Lemma accumulate_inside (color : bool) (a v : Score) :
  inside a -> inside v -> inside (accumulate color a v).
Proof.
  intros Ha Hv. destruct color; cbn.
  - destruct (py_max_cases a v) as [[_ ->]|[_ ->]]; assumption.
  - destruct (py_min_cases a v) as [[_ ->]|[_ ->]]; assumption.
Qed.

Lemma mate_scores_inside (depth : Z) (color : bool) :
  (0 <= depth < 99990000)%Z ->
  inside (if color then - ((max_score + inject_Z depth) / max_score)
          else (max_score - inject_Z depth) / max_score)%Q.
Proof.
  intros [Hlo Hhi]. rewrite Zle_Qle in Hlo. rewrite Zlt_Qlt in Hhi.
  unfold inside, max_score. set (d := inject_Z depth) in *.
  change (inject_Z 0) with 0%Q in Hlo.
  change (inject_Z 99990000) with (99990000 # 1)%Q in Hhi.
  unfold Qdiv. change (/ (10000 # 1))%Q with (1 # 10000)%Q.
  destruct color; split; lra.
Qed.

(** The folded value bounds every child score, from above for White and
    from below for Black, and is the initial value or one of the scores. *)
Lemma fold_accumulate_bound (color : bool) (scores : list Score) :
  forall start,
    (if color then (start <= fold_left (accumulate color) scores start)%Q
     else (fold_left (accumulate color) scores start <= start)%Q) /\
    (forall v, In v scores ->
               if color then (v <= fold_left (accumulate color) scores start)%Q
               else (fold_left (accumulate color) scores start <= v)%Q) /\
    (fold_left (accumulate color) scores start = start \/
     In (fold_left (accumulate color) scores start) scores).
Proof.
  induction scores as [|s rest IH]; intros start; cbn [fold_left].
  - destruct color; repeat split; try lra; try (intros v []); now left.
  - destruct (IH (accumulate color start s)) as [Hstart [Hall Hin]].
    assert (if color then (start <= accumulate color start s)%Q /\
                          (s <= accumulate color start s)%Q
            else (accumulate color start s <= start)%Q /\
                 (accumulate color start s <= s)%Q) as Hstep.
    { destruct color; cbn.
      - destruct (py_max_cases start s) as [[H ->]|[H ->]]; split; lra.
      - destruct (py_min_cases start s) as [[H ->]|[H ->]]; split; lra. }
    repeat split.
    + destruct color; destruct Hstep; lra.
    + intros v [<-|Hv]; [|now apply Hall].
      destruct color; destruct Hstep; lra.
    + destruct Hin as [E|Hin]; [|right; now right].
      rewrite E. destruct color; cbn.
      * destruct (py_max_cases start s) as [[_ ->]|[_ ->]]; [right|]; now left.
      * destruct (py_min_cases start s) as [[_ ->]|[_ ->]]; [right|]; now left.
Qed.

(** ** The selector's comparison *)

Lemma improves_true (side : bool) (s best : Score) :
  improves side s best = true <-> if side then (best < s)%Q else (s < best)%Q.
Proof. destruct side; apply Qltb_lt. Qed.

Lemma improves_false (side : bool) (s best : Score) :
  improves side s best = false <-> if side then (s <= best)%Q else (best <= s)%Q.
Proof. destruct side; apply Qltb_ge. Qed.

Ltac order_scores :=
  repeat match goal with
         | H : improves _ _ _ = true |- _ => apply improves_true in H
         | H : improves _ _ _ = false |- _ => apply improves_false in H
         | |- improves _ _ _ = true => apply improves_true
         | |- improves _ _ _ = false => apply improves_false
         end;
  match goal with
  | side : bool |- _ => destruct side; lra
  end.

(** The pair the selector's updates end with, from any starting pair: its
    score is not improved on by the starting score nor by any score of the
    list, and it is either the starting pair or was set at an index whose
    score improves on the starting score and on every earlier score. *)
Lemma fold_select {Move : Type} (side : bool) (moves : list Move) :
  forall (scores : list Score) (best_move : option Move) (best_score : Score),
    length moves = length scores ->
    let final := fold_left (select side) (combine moves scores)
                           (best_move, best_score) in
    improves side best_score (snd final) = false /\
    (forall s, In s scores -> improves side s (snd final) = false) /\
    (final = (best_move, best_score) \/
     exists i m s,
       nth_error moves i = Some m /\ nth_error scores i = Some s /\
       final = (Some m, s) /\ improves side s best_score = true /\
       forall j s', (j < i)%nat -> nth_error scores j = Some s' ->
                    improves side s s' = true).
Proof.
  induction moves as [|m moves IH]; intros [|s scores] best_move best_score Hlen;
    try discriminate; cbn [combine fold_left].
  - cbn. repeat split.
    + order_scores.
    + intros s [].
    + now left.
  - injection Hlen as Hlen. cbn zeta.
    replace (select side (best_move, best_score) (m, s))
      with (if improves side s best_score then (Some m, s)
            else (best_move, best_score)) by reflexivity.
    destruct (improves side s best_score) eqn:Hs.
    + destruct (IH scores (Some m) s Hlen) as [Hkeep [Hall Hwhere]].
      cbn zeta in *. set (final := fold_left _ _ _) in *.
      repeat split.
      * order_scores.
      * intros s' [<-|Hin]; [exact Hkeep | now apply Hall].
      * right. destruct Hwhere as [E|(i & m' & s' & Hm & Hsc & E & Hbetter & Hfirst)].
        -- exists 0%nat, m, s. repeat split; try assumption. intros j s' Hj. lia.
        -- exists (S i), m', s'. repeat split; try assumption.
           ++ order_scores.
           ++ intros [|j] s'' Hj Hnth.
              ** injection Hnth as <-. exact Hbetter.
              ** apply (Hfirst j); [lia | exact Hnth].
    + destruct (IH scores best_move best_score Hlen) as [Hkeep [Hall Hwhere]].
      cbn zeta in *. set (final := fold_left _ _ _) in *.
      repeat split.
      * exact Hkeep.
      * intros s' [<-|Hin]; [| now apply Hall]. order_scores.
      * destruct Hwhere as [E|(i & m' & s' & Hm & Hsc & E & Hbetter & Hfirst)];
          [now left | right].
        exists (S i), m', s'. repeat split; try assumption.
        intros [|j] s'' Hj Hnth.
        -- injection Hnth as <-. order_scores.
        -- apply (Hfirst j); [lia | exact Hnth].
Qed.

(** ** Lists of moves and of their scores *)

Lemma Forall2_in_left {X V : Type} (P R : X -> V -> Prop) (xs : list X) (vs : list V) :
  Forall2 P xs vs ->
  (forall x v, In x xs -> P x v -> R x v) ->
  Forall2 R xs vs.
Proof.
  induction 1 as [|x v xs vs Hx _ IH]; intros Himp; constructor.
  - apply Himp; [now left | exact Hx].
  - apply IH. intros x' v' Hin. apply Himp. now right.
Qed.

Lemma Forall2_combine {X V : Type} (P : X -> V -> Prop) (xs : list X) (vs : list V) :
  Forall2 P xs vs ->
  Forall2 (fun x xv => fst xv = x /\ P x (snd xv)) xs (combine xs vs).
Proof.
  induction 1; cbn; constructor; auto.
Qed.

Lemma Forall2_total {X V : Type} (P : X -> V -> Prop) (xs : list X) :
  (forall x, In x xs -> exists v, P x v) -> exists vs, Forall2 P xs vs.
Proof.
  induction xs as [|x xs IH]; intros Hall.
  - now exists [].
  - destruct (Hall x (or_introl eq_refl)) as [v Hv].
    destruct IH as [vs Hvs]; [intros; apply Hall; now right|].
    exists (v :: vs). now constructor.
Qed.

(** ** Searches that complete *)

Section Completion.
Context {Board Move : Type} `{API : BoardAPI Board Move}.
Implicit Types (b : Board) (evaluator : Board -> Score).
Hypothesis paired : make_unmake_paired.

(** At or below the limit, [minimax] returns once the fuel covers the
    plies that remain. *)
Lemma minimax_completes evaluator max_depth fuel :
  forall depth color b,
    (depth <= max_depth)%Z ->
    (Z.to_nat (max_depth - depth) <= fuel)%nat ->
    exists v, minimax fuel depth max_depth color evaluator b = (Ret v, b).
Proof.
  induction fuel as [|fuel IH]; intros depth color b Hle Hfuel;
    (destruct (is_game_over b) eqn:Hover;
     [ rewrite minimax_terminal by assumption; eauto | ]);
    (destruct (depth =? max_depth)%Z eqn:Hlimit;
     [ apply Z.eqb_eq in Hlimit; subst;
       rewrite minimax_frontier by assumption; eauto | ]);
    apply Z.eqb_neq in Hlimit.
  - lia.
  - rewrite minimax_expand by (try apply Z.eqb_neq; assumption).
    destruct (for_each_invariant (legal_moves b)
                (visit (minimax_call (S fuel) evaluator (depth + 1) max_depth)
                       (accumulate color)) b
                (fun _ => True) (fun _ => True)) with (acc := initial_best color)
      as [r [Hr _]]; [| exact I | eauto].
    intros acc m Hm _.
    destruct (IH (depth + 1)%Z (turn (push b m)) (push b m)) as [v Hv]; [lia | lia |].
    exists (accumulate color acc v). split; [|exact I].
    apply visit_returns; [now apply paired | exact Hv].
Qed.

(** With the evaluator and the mate scores inside the initial values, and
    a legal move wherever the search loops, the result is inside too. *)
Lemma minimax_inside evaluator max_depth fuel :
  (forall b, inside (evaluator b)) ->
  (max_depth < 99990000)%Z ->
  forall depth color b,
    (0 <= depth <= max_depth)%Z ->
    (Z.to_nat (max_depth - depth) <= fuel)%nat ->
    moves_exist (Z.to_nat (max_depth - depth)) b = true ->
    exists v, minimax fuel depth max_depth color evaluator b = (Ret v, b) /\ inside v.
Proof.
  intros Heval Hmax.
  induction fuel as [|fuel IH]; intros depth color b Hdepth Hfuel Hmoves;
    (destruct (is_game_over b) eqn:Hover;
     [ rewrite minimax_terminal by assumption; eexists; split; [reflexivity|];
       destruct (is_checkmate b); [apply mate_scores_inside; lia | split; reflexivity]
     | ]);
    (destruct (depth =? max_depth)%Z eqn:Hlimit;
     [ apply Z.eqb_eq in Hlimit; subst;
       rewrite minimax_frontier by assumption; eauto | ]);
    apply Z.eqb_neq in Hlimit.
  - lia.
  - rewrite minimax_expand by (try apply Z.eqb_neq; assumption).
    replace (Z.to_nat (max_depth - depth))
      with (S (Z.to_nat (max_depth - (depth + 1)))) in Hmoves by lia.
    cbn [moves_exist] in Hmoves. rewrite Hover in Hmoves. cbn [orb] in Hmoves.
    assert (legal_moves b <> [] /\
            forall m, In m (legal_moves b) ->
                      moves_exist (Z.to_nat (max_depth - (depth + 1))) (push b m) = true)
      as [Hsome Hbelow].
    { destruct (legal_moves b) as [|m0 rest]; [discriminate|].
      split; [discriminate|]. now apply forallb_forall. }
    destruct (for_each_invariant (legal_moves b)
                (visit (minimax_call (S fuel) evaluator (depth + 1) max_depth)
                       (accumulate color)) b
                (fun acc => acc = initial_best color) inside)
      with (acc := initial_best color) as [r [Hr [_ Hin]]]; [| reflexivity | eauto].
    intros acc m Hm Hacc.
    destruct (IH (depth + 1)%Z (turn (push b m)) (push b m)) as [v [Hv Hinside]];
      [lia | lia | now apply Hbelow |].
    exists (accumulate color acc v). split.
    + apply visit_returns; [now apply paired | exact Hv].
    + destruct Hacc as [->|Hacc];
        [now rewrite accumulate_first | now apply accumulate_inside].
Qed.

End Completion.

(** ** Pushes and pops on a recording board *)

Section Replay.
Context {Move : Type}.
Implicit Types (log : list (event Move)) (made : list Move).

Lemma replay_app log1 log2 :
  forall made,
    replay (log1 ++ log2) made =
    match replay log1 made with
    | Some made' => replay log2 made'
    | None => None
    end.
Proof.
  induction log1 as [|[m|] rest IH]; intros made; cbn.
  - reflexivity.
  - apply IH.
  - destruct made; [reflexivity | apply IH].
Qed.

Lemma well_paired_nil : well_paired (@nil (event Move)).
Proof. intros made. reflexivity. Qed.

Lemma well_paired_app log1 log2 :
  well_paired log1 -> well_paired log2 -> well_paired (log1 ++ log2).
Proof. intros H1 H2 made. now rewrite replay_app, H1. Qed.

Lemma well_paired_wrap (m : Move) log :
  well_paired log -> well_paired (Made m :: log ++ [Unmade]).
Proof. intros H made. cbn. now rewrite replay_app, H. Qed.

Lemma replay_under log :
  forall made made' below,
    replay log made = Some made' ->
    replay log (made ++ below) = Some (made' ++ below).
Proof.
  induction log as [|[m|] rest IH]; intros made made' below; cbn.
  - now intros [= ->].
  - apply (IH (m :: made)).
  - destruct made as [|m0 made]; [discriminate | apply IH].
Qed.

Lemma well_paired_check log : replay log [] = Some [] -> well_paired log.
Proof. intros H made. apply (replay_under log [] [] made H). Qed.

End Replay.

Section Recorded.
Context {Board Move : Type} `{API : BoardAPI Board Move}.
Implicit Types (b : Board) (log : list (event Move)) (rb : recorded Board Move).
Hypothesis paired : make_unmake_paired.

(** A loop on a recording board whose child searches each leave a
    well-paired log behind leaves one behind itself. *)
Lemma loop_recorded (call : bool -> Py (recorded Board Move) Score) f b :
  (forall m side log v rb,
      In m (legal_moves b) ->
      call side (push b m, log) = (Ret v, rb) ->
      exists t, rb = (push b m, log ++ t) /\ well_paired t) ->
  forall moves, incl moves (legal_moves b) ->
  forall acc log r rb,
    for_each moves acc (visit (API := recording) call f) (b, log) = (Ret r, rb) ->
    exists t, rb = (b, log ++ t) /\ well_paired t.
Proof.
  intros Hcall. induction moves as [|m rest IH]; intros Hincl acc log r rb; cbn.
  - intros [= _ <-]. exists []. split; [now rewrite app_nil_r | apply well_paired_nil].
  - unfold bind. rewrite (visit_run (API := recording)). cbn [push pop turn recording fst snd].
    destruct (call (turn (push b m)) (push b m, log ++ [Made m])) as [[v| |] rb1] eqn:E;
      try discriminate.
    destruct (Hcall m _ _ v rb1 (Hincl m (or_introl eq_refl)) E) as [t1 [-> Ht1]].
    cbn [fst snd]. rewrite paired by (apply Hincl; now left).
    intros Hrest. apply IH in Hrest; [|intros x Hx; apply Hincl; now right].
    destruct Hrest as [t2 [-> Ht2]].
    exists ((Made m :: t1 ++ [Unmade]) ++ t2). split.
    + f_equal. cbn [app]. rewrite <- !app_assoc. reflexivity.
    + apply well_paired_app; [now apply well_paired_wrap | exact Ht2].
Qed.

Lemma minimax_recorded fuel :
  forall depth max_depth color evaluator b log v rb,
    minimax (API := recording) fuel depth max_depth color evaluator (b, log)
    = (Ret v, rb) ->
    exists t, rb = (b, log ++ t) /\ well_paired t.
Proof.
  induction fuel as [|fuel IH]; intros depth max_depth color evaluator b log v rb;
    (destruct (is_game_over b) eqn:Hover;
     [ rewrite (minimax_terminal (API := recording)) by assumption; intros [= _ <-];
       exists []; split; [now rewrite app_nil_r | apply well_paired_nil] | ];
     destruct (depth =? max_depth)%Z eqn:Hlimit;
     [ apply Z.eqb_eq in Hlimit; subst;
       rewrite (minimax_frontier (API := recording)) by assumption; intros [= _ <-];
       exists []; split; [now rewrite app_nil_r | apply well_paired_nil] | ];
     rewrite (minimax_expand (API := recording)) by assumption;
     apply loop_recorded; [| apply incl_refl];
     intros m side log1 v1 rb1 _; cbn [minimax_call]).
  - discriminate.
  - apply IH.
Qed.

Lemma probabilistic_recorded fuel :
  forall p mp color evaluator b log v rb,
    probabilistic_minimax (API := recording) fuel p mp color evaluator (b, log)
    = (Ret v, rb) ->
    exists t, rb = (b, log ++ t) /\ well_paired t.
Proof.
  induction fuel as [|fuel IH]; intros p mp color evaluator b log v rb;
    (destruct (is_game_over b) eqn:Hover;
     [ rewrite (probabilistic_terminal (API := recording)) by assumption;
       intros [= _ <-];
       exists []; split; [now rewrite app_nil_r | apply well_paired_nil] | ];
     destruct (Qltb p mp) eqn:Hthreshold;
     [ rewrite (probabilistic_frontier (API := recording)) by assumption;
       intros [= _ <-];
       exists []; split; [now rewrite app_nil_r | apply well_paired_nil] | ];
     rewrite (probabilistic_expand (API := recording)) by assumption;
     apply loop_recorded; [| apply incl_refl];
     intros m side log1 v1 rb1 _; unfold bind, lift;
     destruct (py_div p _); try discriminate; cbn [probabilistic_call]).
  apply IH.
Qed.

Lemma selector_loop_recorded fuel max_depth evaluator b :
  forall moves, incl moves (legal_moves b) ->
  forall acc log r rb,
    for_each moves acc (consider (API := recording) fuel max_depth evaluator) (b, log)
    = (Ret r, rb) ->
    exists t, rb = (b, log ++ t) /\ well_paired t.
Proof.
  induction moves as [|m rest IH]; intros Hincl acc log r rb; cbn.
  - intros [= _ <-]. exists []. split; [now rewrite app_nil_r | apply well_paired_nil].
  - unfold bind at 1. unfold consider at 1, bind, update, ask, ret.
    cbn [push pop turn recording fst snd].
    destruct (minimax (API := recording) fuel 0 max_depth (turn (push b m)) evaluator
                      (push b m, log ++ [Made m])) as [[s| |] rb1] eqn:E;
      try discriminate.
    apply minimax_recorded in E. destruct E as [t1 [-> Ht1]].
    cbn [fst snd]. rewrite paired by (apply Hincl; now left).
    intros Hrest. apply IH in Hrest; [|intros x Hx; apply Hincl; now right].
    destruct Hrest as [t2 [-> Ht2]].
    exists ((Made m :: t1 ++ [Unmade]) ++ t2). split.
    + f_equal. cbn [app]. rewrite <- !app_assoc. reflexivity.
    + apply well_paired_app; [now apply well_paired_wrap | exact Ht2].
Qed.

Lemma find_best_move_recorded fuel max_depth evaluator b log r rb :
  find_best_move (API := recording) fuel max_depth evaluator (b, log) = (Ret r, rb) ->
  exists t, rb = (b, log ++ t) /\ well_paired t.
Proof.
  destruct (legal_moves b) as [|m0 rest0] eqn:Hmoves.
  - unfold find_best_move, bind, ask, ret. cbn [legal_moves recording fst].
    rewrite Hmoves. cbn. intros [= _ <-].
    exists []. split; [now rewrite app_nil_r | apply well_paired_nil].
  - rewrite (find_best_move_expand (API := recording))
      by (cbn [legal_moves recording fst]; congruence).
    apply selector_loop_recorded. apply incl_refl.
Qed.

End Recorded.

(** ** The loops of the three searches *)

Section Searches.
Context {Board Move : Type} `{API : BoardAPI Board Move}.
Implicit Types (b : Board) (evaluator : Board -> Score).

(** C3.  On a position that is not reported game over,
    [probabilistic_minimax] returns the evaluator's value, with no
    recursive call, when the budget is below the threshold.  Otherwise,
    under the make/unmake contract, with [n] the number of legal moves of
    the position, each child is searched with budget [proba_depth / n], and
    when these searches return the scores [scores], the call returns their
    fold into the initial value: an upper bound of the scores for the
    maximizing side, a lower bound otherwise, and one of the scores or the
    initial value itself. *)
Theorem probabilistic_minimax_step proba_depth min_proba_depth color evaluator b :
  is_game_over b = false ->
  ((proba_depth < min_proba_depth)%Q ->
   forall fuel,
     probabilistic_minimax fuel proba_depth min_proba_depth color evaluator b =
     (Ret (evaluator b), b)) /\
  (~ (proba_depth < min_proba_depth)%Q ->
   make_unmake_paired ->
   forall fuel scores,
     Forall2 (fun m v =>
                fst (probabilistic_minimax
                       fuel
                       (proba_depth / inject_Z (Z.of_nat (length (legal_moves b))))
                       min_proba_depth (turn (push b m)) evaluator (push b m))
                = Ret v)
             (legal_moves b) scores ->
     probabilistic_minimax (S fuel) proba_depth min_proba_depth color evaluator b =
     (Ret (combined color scores), b) /\
     (forall v, In v scores ->
                if color then (v <= combined color scores)%Q
                else (combined color scores <= v)%Q) /\
     (combined color scores = initial_best color \/
      In (combined color scores) scores)).
Proof.
  intros Hover. split.
  - intros Hlt fuel. apply probabilistic_frontier; [assumption | now apply Qltb_lt].
  - intros Hge paired fuel scores Hscores.
    assert (Qltb proba_depth min_proba_depth = false) as Hthreshold.
    { apply not_true_iff_false. now rewrite Qltb_lt. }
    split; [|split].
    + rewrite probabilistic_expand by assumption.
      apply for_each_fold.
      eapply Forall2_in_left; [exact Hscores|].
      intros m v Hm Hchild acc. cbn beta in Hchild.
      apply visit_returns; [now apply paired|].
      unfold bind, lift, py_div.
      destruct (Z.of_nat (length (legal_moves b)) =? 0)%Z eqn:Hzero.
      * apply Z.eqb_eq in Hzero. destruct (legal_moves b); [destruct Hm | discriminate].
      * cbn [probabilistic_call].
        destruct (probabilistic_minimax _ _ _ _ _ (push b m)) as [r b'] eqn:Hrun.
        cbn in Hchild. subst r. apply (probabilistic_frame paired) in Hrun as Hb'.
        now subst b'.
    + apply fold_accumulate_bound.
    + apply fold_accumulate_bound.
Qed.

(** C4, amended.  At a root with a legal move, under the make/unmake
    contract: the sub-searches of the root moves return once the fuel
    covers a non-negative [max_depth]; and when they return the scores
    [scores], the selector returns a pair whose score no score of the list
    strictly improves on.  If some score strictly improves on the initial
    value, the move returned is the first move in enumeration order whose
    score equals the returned score; if none does, no move is returned and
    the score is the initial value. *)
Theorem find_best_move_first_best fuel max_depth evaluator b :
  make_unmake_paired ->
  legal_moves b <> [] ->
  let scored m s :=
    fst (minimax fuel 0 max_depth (turn (push b m)) evaluator (push b m)) = Ret s in
  ((0 <= max_depth)%Z -> (Z.to_nat max_depth <= fuel)%nat ->
   exists scores, Forall2 scored (legal_moves b) scores) /\
  forall scores,
    Forall2 scored (legal_moves b) scores ->
    exists best_move best_score,
      find_best_move fuel max_depth evaluator b = (Ret (best_move, best_score), b) /\
      (forall s, In s scores -> improves (turn b) s best_score = false) /\
      ((exists s, In s scores /\ improves (turn b) s (initial_best (turn b)) = true) ->
       exists m, best_move = Some m /\
                 first_with_score (legal_moves b) scores best_score m) /\
      ((forall s, In s scores -> improves (turn b) s (initial_best (turn b)) = false) ->
       best_move = None /\ best_score = initial_best (turn b)).
Proof.
  intros paired Hmoves scored. split.
  - intros Hdepth Hfuel. apply Forall2_total. intros m _.
    destruct (minimax_completes paired evaluator max_depth fuel 0
                (turn (push b m)) (push b m)) as [v Hv];
      [lia | now rewrite Z.sub_0_r |].
    exists v. unfold scored. now rewrite Hv.
  - intros scores Hscores.
    pose proof (Forall2_length Hscores) as Hlen.
    destruct (fold_select (turn b) (legal_moves b) scores None
                          (initial_best (turn b)) Hlen) as [_ [Hbest Hwhere]].
    cbn zeta in Hbest, Hwhere.
    set (final := fold_left (select (turn b)) (combine (legal_moves b) scores)
                            (None, initial_best (turn b))) in *.
    exists (fst final), (snd final). split; [|split; [exact Hbest|split]].
    + rewrite find_best_move_expand by assumption.
      rewrite <- surjective_pairing. apply for_each_fold.
      eapply Forall2_in_left; [apply Forall2_combine; exact Hscores|].
      intros m [m' s] Hm [Hfst Hchild] acc. cbn [fst snd] in Hfst, Hchild. subst m'.
      rewrite (consider_run paired) by assumption. unfold scored in Hchild.
      destruct (minimax fuel 0 max_depth (turn (push b m)) evaluator (push b m))
        as [r b']. cbn in Hchild. now subst r.
    + intros [s [Hin Hs]].
      destruct Hwhere as [E|(i & m & s' & Hm & Hsc & E & Hbetter & Hfirst)].
      * rewrite E in Hbest. cbn [snd] in Hbest. rewrite (Hbest s Hin) in Hs. discriminate.
      * exists m. rewrite E. cbn [fst snd]. split; [reflexivity|].
        exists i, s'. repeat split; try assumption; try reflexivity.
        intros j s'' Hj Hnth Heq. specialize (Hfirst j s'' Hj Hnth).
        apply improves_true in Hfirst. destruct (turn b); lra.
    + intros Hnone.
      destruct Hwhere as [E|(i & m & s' & Hm & Hsc & E & Hbetter & Hfirst)].
      * rewrite E. now split.
      * apply nth_error_In in Hsc. rewrite (Hnone s' Hsc) in Hbetter. discriminate.
Qed.

(** C7, amended.  Under the make/unmake contract, with an evaluator whose
    values lie strictly between [-max_score] and [max_score], depths
    between 0 and a limit below 99990000, and fuel for the plies that
    remain: on a position that is not reported game over, strictly below
    the limit, with a legal move at it and at every position below it that
    the search loops on, [minimax] returns a score that is neither
    [-max_score] nor [max_score]. *)
Theorem minimax_keeps_initial_value_out fuel depth max_depth color evaluator b :
  make_unmake_paired ->
  (forall b', (- max_score < evaluator b' /\ evaluator b' < max_score)%Q) ->
  (0 <= depth < max_depth)%Z -> (max_depth < 99990000)%Z ->
  (Z.to_nat (max_depth - depth) <= fuel)%nat ->
  is_game_over b = false ->
  moves_exist (Z.to_nat (max_depth - depth)) b = true ->
  exists v,
    minimax fuel depth max_depth color evaluator b = (Ret v, b) /\
    ~ (v == - max_score)%Q /\ ~ (v == max_score)%Q.
Proof.
  intros paired Heval Hdepth Hmax Hfuel Hover Hmoves.
  destruct (minimax_inside paired evaluator max_depth fuel Heval Hmax
              depth color b) as [v [Hv [Hlo Hhi]]]; [lia | assumption | assumption |].
  exists v. split; [exact Hv|]. split; intros E; rewrite E in *; lra.
Qed.

(** C8.  Under the make/unmake contract, a call of [minimax], of
    [probabilistic_minimax] or of [find_best_move] that returns leaves the
    board equal to the board it was called on.  Run on a recording board, such
    a call only appends to the log, and what it appends is well paired: every
    push is undone by a pop, the last made first, and no pop comes without
    its push. *)
Theorem search_restores_board :
  make_unmake_paired ->
  (forall fuel depth max_depth color evaluator b v b',
      minimax fuel depth max_depth color evaluator b = (Ret v, b') -> b' = b) /\
  (forall fuel proba_depth min_proba_depth color evaluator b v b',
      probabilistic_minimax fuel proba_depth min_proba_depth color evaluator b
      = (Ret v, b') -> b' = b) /\
  (forall fuel max_depth evaluator b r b',
      find_best_move fuel max_depth evaluator b = (Ret r, b') -> b' = b) /\
  (forall fuel depth max_depth color (evaluator : recorded Board Move -> Score)
          b log v rb,
      minimax (API := recording) fuel depth max_depth color evaluator (b, log)
      = (Ret v, rb) ->
      exists t, rb = (b, log ++ t) /\ well_paired t) /\
  (forall fuel proba_depth min_proba_depth color
          (evaluator : recorded Board Move -> Score) b log v rb,
      probabilistic_minimax (API := recording) fuel proba_depth min_proba_depth
                            color evaluator (b, log)
      = (Ret v, rb) ->
      exists t, rb = (b, log ++ t) /\ well_paired t) /\
  (forall fuel max_depth (evaluator : recorded Board Move -> Score) b log r rb,
      find_best_move (API := recording) fuel max_depth evaluator (b, log)
      = (Ret r, rb) ->
      exists t, rb = (b, log ++ t) /\ well_paired t).
Proof.
  intros paired. repeat apply conj; intros.
  - eapply minimax_frame; eassumption.
  - eapply probabilistic_frame; eassumption.
  - eapply find_best_move_frame; eassumption.
  - eapply minimax_recorded; eassumption.
  - eapply probabilistic_recorded; eassumption.
  - eapply find_best_move_recorded; eassumption.
Qed.

End Searches.

Lemma probabilistic_minimax_step_witness :
  let b := Scripted.start
             (Scripted.Node false false true
                [Scripted.open_leaf false; Scripted.draw_leaf]) in
  probabilistic_minimax 1 1 (3 # 4) true (fun _ => 1 # 4) b =
  (Ret (combined true [1 # 4; 0]), b) /\
  (forall v, In v [1 # 4; 0] -> (v <= combined true [1 # 4; 0])%Q) /\
  (combined true [1 # 4; 0] = initial_best true \/
   In (combined true [1 # 4; 0]) [1 # 4; 0]).
Proof.
  intros b.
  refine (proj2 (probabilistic_minimax_step 1 (3 # 4) true (fun _ => 1 # 4) b eq_refl)
                _ Scripted_paired 0%nat [1 # 4; 0] _).
  - intros Hlt. vm_compute in Hlt. discriminate Hlt.
  - repeat constructor.
Defined.

Lemma find_best_move_first_best_witness :
  let b := Scripted.start
             (Scripted.Node false false true
                [Scripted.open_leaf false; Scripted.open_leaf false;
                 Scripted.draw_leaf]) in
  let scores := [1 # 4; 1 # 4; 0] in
  exists best_move best_score,
    find_best_move 0 0 (fun _ => 1 # 4) b = (Ret (best_move, best_score), b) /\
    (forall s, In s scores -> improves (turn b) s best_score = false) /\
    ((exists s, In s scores /\ improves (turn b) s (initial_best (turn b)) = true) ->
     exists m, best_move = Some m /\
               first_with_score (legal_moves b) scores best_score m) /\
    ((forall s, In s scores -> improves (turn b) s (initial_best (turn b)) = false) ->
     best_move = None /\ best_score = initial_best (turn b)).
Proof.
  intros b scores.
  refine (proj2 (find_best_move_first_best 0 0 (fun _ => 1 # 4) b Scripted_paired _)
                scores _).
  - discriminate.
  - repeat constructor.
Defined.

(** C4, as stated, fails when no score strictly improves on the initial
    value: here the only move of the root scores [-max_score], which is the
    score the selector returns, and the selector returns no move. *)
Lemma find_best_move_tie_with_initial_counterexample :
  let b := Scripted.start
             (Scripted.Node false false true [Scripted.open_leaf false]) in
  let evaluator := fun _ : Scripted.board => (- max_score)%Q in
  legal_moves b = [0%nat] /\
  minimax 0 0 0 (turn (push b 0%nat)) evaluator (push b 0%nat) =
  (Ret (- max_score)%Q, push b 0%nat) /\
  first_with_score (legal_moves b) [(- max_score)%Q] (- max_score)%Q 0%nat /\
  find_best_move 0 0 evaluator b = (Ret (None, (- max_score)%Q), b).
Proof.
  intros b evaluator. repeat split.
  exists 0%nat, (- max_score)%Q. repeat split.
  intros j s' Hj. lia.
Qed.

Lemma minimax_keeps_initial_value_out_witness :
  let b := Scripted.start
             (Scripted.Node false false true [Scripted.open_leaf false]) in
  exists v,
    minimax 1 0 1 true (fun _ => 0%Q) b = (Ret v, b) /\
    ~ (v == - max_score)%Q /\ ~ (v == max_score)%Q.
Proof.
  intros b.
  apply (minimax_keeps_initial_value_out 1 0 1 true (fun _ => 0%Q) b Scripted_paired).
  - intros b'. split; reflexivity.
  - lia.
  - lia.
  - apply le_n.
  - reflexivity.
  - reflexivity.
Defined.

(** C7, as stated, fails for an evaluator whose values are not above
    [-max_score]: the root has a legal move, the position below it is not
    game over and has a legal move too, the evaluator gives -20000 at the
    limit, and the maximizing root returns [-max_score]. *)
Lemma minimax_initial_value_returned_counterexample :
  let b := Scripted.start
             (Scripted.Node false false true [Scripted.open_leaf false]) in
  let evaluator := fun _ : Scripted.board => (- (20000 # 1))%Q in
  is_game_over b = false /\
  legal_moves b = [0%nat] /\
  moves_exist 1 b = true /\
  minimax 1 0 1 true evaluator b = (Ret (- max_score)%Q, b).
Proof. intros b evaluator. repeat split. Qed.

Lemma search_restores_board_witness :
  let b := Scripted.start
             (Scripted.Node false false true
                [Scripted.open_leaf false; Scripted.draw_leaf]) in
  let evaluator := fun _ : Scripted.board => (1 # 4)%Q in
  let recorder := fun _ : recorded Scripted.board nat => (1 # 4)%Q in
  snd (minimax 1 0 1 true evaluator b) = b /\
  snd (probabilistic_minimax 1 1 (3 # 4) true evaluator b) = b /\
  snd (find_best_move 1 1 evaluator b) = b /\
  exists t,
    (b, [Made 0%nat; Unmade; Made 1%nat; Unmade]) = (b, [] ++ t) /\ well_paired t.
Proof.
  intros b evaluator recorder.
  destruct (search_restores_board (Board := Scripted.board) Scripted_paired)
    as (Hminimax & Hprobabilistic & Hselector & Hrecorded & _).
  split; [|split; [|split]].
  - apply (Hminimax 1%nat 0%Z 1%Z true evaluator b (1 # 4)%Q). reflexivity.
  - apply (Hprobabilistic 1%nat 1%Q (3 # 4)%Q true evaluator b (1 # 4)%Q). reflexivity.
  - apply (Hselector 1%nat 1%Z evaluator b (Some 0%nat, 0%Q)). reflexivity.
  - apply (Hrecorded 1%nat 0%Z 1%Z true recorder b [] (1 # 4)%Q). reflexivity.
Defined.

(** ** The self-play loop *)

Section SelfPlay.
Context {Board Move : Type} `{API : BoardAPI Board Move}.
Implicit Types (b : Board) (white_eval black_eval : Board -> Score).

(** C6, amended.  The loop of a game consults the selector only on a
    position that is not reported game over, and hands whatever the selector
    returned to [push], with no test for [None]: a move is pushed and the
    loop goes on from the new position; [None] makes the push raise, the
    loop ends in that exception and the session with it, no outcome being
    classified.  On a position that is already reported game over the loop
    calls no selector and pushes nothing, the board is untouched and the
    driver goes on with the classification of the outcome. *)
Theorem play_game_step white_eval black_eval b :
  (is_game_over b = true ->
   (forall plies, play_game plies white_eval black_eval b = (Ret tt, b)) /\
   (forall games plies tally,
       self_play (S games) plies white_eval black_eval tally b =
       (tally' <- classify tally ;;
        self_play games plies white_eval black_eval tally') b)) /\
  (is_game_over b = false ->
   forall plies move score b',
     find_best_move 1 1 (if turn b then white_eval else black_eval) b
     = (Ret (move, score), b') ->
     play_game (S plies) white_eval black_eval b =
     match move with
     | Some m => play_game plies white_eval black_eval (push b' m)
     | None => (Raise AttributeError, b')
     end) /\
  (is_game_over b = false ->
   forall games plies tally score b',
     find_best_move 1 1 (if turn b then white_eval else black_eval) b
     = (Ret (None, score), b') ->
     self_play (S games) (S plies) white_eval black_eval tally b =
     (Raise AttributeError, b')).
Proof.
  assert (is_game_over b = false ->
          forall plies move score b',
            find_best_move 1 1 (if turn b then white_eval else black_eval) b
            = (Ret (move, score), b') ->
            play_game (S plies) white_eval black_eval b =
            match move with
            | Some m => play_game plies white_eval black_eval (push b' m)
            | None => (Raise AttributeError, b')
            end) as Hply.
  { intros Hover plies move score b' Hfound.
    cbn [play_game]. unfold bind at 1, ask at 1. rewrite Hover.
    unfold bind at 1, ask at 1. unfold bind at 1. rewrite Hfound.
    destruct move; reflexivity. }
  split; [|split].
  - intros Hover.
    assert (forall plies, play_game plies white_eval black_eval b = (Ret tt, b))
      as Hloop.
    { intros [|plies]; cbn; unfold bind, ask; rewrite Hover; reflexivity. }
    split; [exact Hloop|].
    intros games plies tally. cbn [self_play]. unfold bind at 1.
    now rewrite Hloop.
  - exact Hply.
  - intros Hover games plies tally score b' Hfound.
    cbn [self_play]. unfold bind at 1.
    now rewrite (Hply Hover plies None score b' Hfound).
Qed.

End SelfPlay.

Lemma play_game_step_witness :
  let over := Scripted.start Scripted.mated_black in
  let b := Scripted.start
             (Scripted.Node false false true [Scripted.mated_black]) in
  let stuck := Scripted.start (Scripted.stuck true) in
  let evaluator := fun _ : Scripted.board => 0%Q in
  play_game 0 evaluator evaluator over = (Ret tt, over) /\
  play_game 1 evaluator evaluator b
  = play_game 0 evaluator evaluator (push b 0%nat) /\
  play_game 1 evaluator evaluator stuck = (Raise AttributeError, stuck) /\
  self_play 1 1 evaluator evaluator {| White := 0; Black := 0 |} stuck
  = (Raise AttributeError, stuck).
Proof.
  intros over b stuck evaluator. split; [|split; [|split]].
  - exact (proj1 (proj1 (play_game_step evaluator evaluator over) eq_refl) 0%nat).
  - exact (proj1 (proj2 (play_game_step evaluator evaluator b)) eq_refl 0%nat
                 (Some 0%nat) ((max_score - inject_Z 0) / max_score)%Q b eq_refl).
  - exact (proj1 (proj2 (play_game_step evaluator evaluator stuck)) eq_refl 0%nat
                 None (- max_score / max_score)%Q stuck eq_refl).
  - exact (proj2 (proj2 (play_game_step evaluator evaluator stuck)) eq_refl 0%nat 0%nat
                 {| White := 0; Black := 0 |} (- max_score / max_score)%Q stuck eq_refl).
Defined.

(** C6, as stated, fails: the loop has no test on the move it gets back.
    On a position that is not reported game over and has no legal move the
    selector returns no move, the driver hands it to [push], and the game
    ends in an exception with no outcome classified. *)
Lemma play_game_no_move_counterexample :
  let b := Scripted.start (Scripted.stuck true) in
  let evaluator := fun _ : Scripted.board => 0%Q in
  is_game_over b = false /\
  find_best_move 1 1 evaluator b = (Ret (None, (- max_score / max_score)%Q), b) /\
  play_game 1 evaluator evaluator b = (Raise AttributeError, b) /\
  self_play 1 1 evaluator evaluator {| White := 0; Black := 0 |} b
  = (Raise AttributeError, b).
Proof. intros b evaluator. repeat split. Qed.

(** * Further properties of the program *)

(** ** The material evaluator *)

(** The value a character adds to the count: its entry in [value_map], or
    nothing when it has none. *)
Lemma count_pieces_sum (fen : list Ascii.ascii) :
  forall start,
    fold_left (fun val char =>
                 match dict_get value_map char with
                 | Some v => (val + v)%Z
                 | None => val
                 end) fen start
    = (start + fold_right (fun char total =>
                             match dict_get value_map char with
                             | Some v => (v + total)%Z
                             | None => total
                             end) 0%Z fen)%Z.
Proof.
  induction fen as [|c rest IH]; intros start; cbn [fold_left fold_right].
  - lia.
  - rewrite IH. destruct (dict_get value_map c); lia.
Qed.

Lemma count_pieces_cons (c : Ascii.ascii) (rest : list Ascii.ascii) :
  count_pieces (c :: rest) =
  match dict_get value_map c with
  | Some v => (v + count_pieces rest)%Z
  | None => count_pieces rest
  end.
Proof.
  unfold count_pieces. rewrite !count_pieces_sum. cbn [fold_right].
  set (total := fold_right _ 0%Z rest).
  destruct (dict_get value_map c); lia.
Qed.

Lemma count_pieces_permutation (fen fen' : list Ascii.ascii) :
  Permutation fen fen' -> count_pieces fen = count_pieces fen'.
Proof.
  induction 1 as [|c l l' _ IH|c d l|l l' l'' _ IH1 _ IH2].
  - reflexivity.
  - rewrite !count_pieces_cons, IH. reflexivity.
  - rewrite !count_pieces_cons.
    destruct (dict_get value_map c), (dict_get value_map d); lia.
  - congruence.
Qed.

(** A letter of the other colour has the opposite value, and a character
    without a value has none after the exchange either. *)
Lemma value_map_swapcase (c : Ascii.ascii) :
  dict_get value_map (swapcase c) =
  match dict_get value_map c with
  | Some v => Some (- v)%Z
  | None => None
  end.
Proof.
  destruct c as [[] [] [] [] [] [] [] []]; vm_compute; reflexivity.
Qed.

Lemma value_map_bound (c : Ascii.ascii) (v : Z) :
  dict_get value_map c = Some v -> (-9 <= v <= 9)%Z.
Proof.
  destruct c as [[] [] [] [] [] [] [] []]; intros E; vm_compute in E;
    try discriminate E; injection E as <-; lia.
Qed.

Lemma count_pieces_swapcase (fen : list Ascii.ascii) :
  count_pieces (map swapcase fen) = (- count_pieces fen)%Z.
Proof.
  induction fen as [|c rest IH]; [reflexivity|].
  cbn [map]. rewrite !count_pieces_cons, value_map_swapcase, IH.
  destruct (dict_get value_map c); lia.
Qed.

Lemma count_pieces_bound (fen : list Ascii.ascii) :
  (- (9 * Z.of_nat (length fen)) <= count_pieces fen <= 9 * Z.of_nat (length fen))%Z.
Proof.
  induction fen as [|c rest IH]; [cbn; lia|].
  rewrite count_pieces_cons. cbn [length]. rewrite Nat2Z.inj_succ.
  destruct (dict_get value_map c) as [v|] eqn:E; [apply value_map_bound in E|]; lia.
Qed.

Lemma inject_Z_over_val_max_le (x y : Z) :
  (x <= y)%Z -> (inject_Z x / val_max <= inject_Z y / val_max)%Q.
Proof.
  intros Hle. rewrite Zle_Qle in Hle.
  unfold val_max, Qdiv. change (/ (22 # 1))%Q with (1 # 22)%Q. lra.
Qed.

(** Permutations of two explicit lists: the head of the left list is looked
    for in the right one and taken out of both. *)
Ltac take_out x l k :=
  lazymatch l with
  | x :: ?rest => k (@nil Ascii.ascii) rest
  | ?y :: ?rest => take_out x rest ltac:(fun before after => k (y :: before) after)
  end.

Ltac explicit_permutation :=
  lazymatch goal with
  | |- Permutation [] [] => apply perm_nil
  | |- Permutation (?x :: ?l) ?l' =>
      take_out x l' ltac:(fun before after =>
        change l' with (before ++ x :: after);
        apply Permutation_cons_app; cbn [app]; explicit_permutation)
  end.

Section Material.
Context {Board : Type} `{Fen : FenAPI Board}.
Implicit Types (b : Board).

(** X1.  [naive_evaluation] depends on which characters the placement
    string holds and on the castling rights, not on the order of the
    characters: two boards with the same rights whose placements are
    permutations of each other get the same value. *)
Theorem naive_evaluation_order_free b b' :
  Permutation (String.list_ascii_of_string (board_fen b))
              (String.list_ascii_of_string (board_fen b')) ->
  (forall color, has_castling_rights b color = has_castling_rights b' color) ->
  naive_evaluation b = naive_evaluation b'.
Proof.
  intros Hperm Hrights. unfold naive_evaluation.
  now rewrite (count_pieces_permutation _ _ Hperm), !Hrights.
Qed.

(** X2.  Exchanging the colours negates the value: when the placement of
    [b'] is, up to the order of its characters, the placement of [b] with
    upper and lower case exchanged, and each side of [b'] has the castling
    right the other side has in [b], the value of [b'] is the opposite of
    the value of [b]. *)
Theorem naive_evaluation_colours_exchanged b b' :
  Permutation (String.list_ascii_of_string (board_fen b'))
              (map swapcase (String.list_ascii_of_string (board_fen b))) ->
  (forall color, has_castling_rights b' color = has_castling_rights b (negb color)) ->
  (naive_evaluation b' == - naive_evaluation b)%Q.
Proof.
  intros Hperm Hrights. unfold naive_evaluation.
  rewrite (count_pieces_permutation _ _ Hperm), count_pieces_swapcase, !Hrights.
  cbn [negb].
  set (n := count_pieces _).
  assert (forall x y : Z, x = (- y)%Z ->
            (inject_Z x / val_max == - (inject_Z y / val_max))%Q) as Hneg.
  { intros x y ->. rewrite inject_Z_opp. unfold val_max, Qdiv.
    change (/ (22 # 1))%Q with (1 # 22)%Q. lra. }
  apply Hneg.
  destruct (has_castling_rights b false), (has_castling_rights b true); lia.
Qed.

(** X3.  The value is at most [(9 * n + 1) / 22] in absolute value, [n]
    being the length of the placement string: no character counts for more
    than a queen and the castling rights add at most one. *)
Theorem naive_evaluation_bounded b :
  let n := Z.of_nat (length (String.list_ascii_of_string (board_fen b))) in
  (- (inject_Z (9 * n + 1) / val_max) <= naive_evaluation b /\
   naive_evaluation b <= inject_Z (9 * n + 1) / val_max)%Q.
Proof.
  intros n. unfold naive_evaluation.
  pose proof (count_pieces_bound (String.list_ascii_of_string (board_fen b))) as Hb.
  fold n in Hb. set (val := count_pieces _) in *.
  assert (forall x : Z, (- (9 * n + 1) <= x <= 9 * n + 1)%Z ->
            (- (inject_Z (9 * n + 1) / val_max) <= inject_Z x / val_max /\
             inject_Z x / val_max <= inject_Z (9 * n + 1) / val_max)%Q) as Hq.
  { intros x [Hlo Hhi]. split; [|now apply inject_Z_over_val_max_le].
    apply inject_Z_over_val_max_le in Hlo. rewrite inject_Z_opp in Hlo.
    unfold val_max, Qdiv in *. change (/ (22 # 1))%Q with (1 # 22)%Q in *. lra. }
  apply Hq.
  destruct (has_castling_rights b true), (has_castling_rights b false); lia.
Qed.

End Material.

Lemma naive_evaluation_order_free_witness :
  naive_evaluation Diagram.rook_up = naive_evaluation Diagram.rook_up_flipped.
Proof.
  apply (naive_evaluation_order_free Diagram.rook_up Diagram.rook_up_flipped).
  - vm_compute. explicit_permutation.
  - intros []; reflexivity.
Defined.

Lemma naive_evaluation_colours_exchanged_witness :
  (naive_evaluation Diagram.rook_down == - naive_evaluation Diagram.rook_up)%Q.
Proof.
  apply (naive_evaluation_colours_exchanged Diagram.rook_up Diagram.rook_down).
  - vm_compute. explicit_permutation.
  - intros []; reflexivity.
Defined.

(** ** More on loops *)

Section MoreLoops.
Context {Board X A : Type}.
Implicit Types (xs : list X) (body : A -> X -> Py Board A).

(** A property of the accumulator that every returning turn keeps holds of
    the result of a returning loop, whatever happens to the board. *)
Lemma for_each_result xs body (P : A -> Prop) :
  (forall acc x s r s', In x xs -> P acc -> body acc x s = (Ret r, s') -> P r) ->
  forall acc s r s', P acc -> for_each xs acc body s = (Ret r, s') -> P r.
Proof.
  induction xs as [|x rest IH]; intros Hbody acc s r s' Hacc; cbn.
  - now intros [= <- _].
  - unfold bind. destruct (body acc x s) as [[a| |] s1] eqn:E; try discriminate.
    apply IH.
    + intros; eapply Hbody; [right| |]; eassumption.
    + eapply Hbody; [now left | exact Hacc | exact E].
Qed.

(** A loop whose turns never raise never raises. *)
Lemma for_each_no_raise xs body :
  (forall acc x s e, In x xs -> fst (body acc x s) <> Raise e) ->
  forall acc s e, fst (for_each xs acc body s) <> Raise e.
Proof.
  induction xs as [|x rest IH]; intros Hbody acc s e; cbn.
  - discriminate.
  - unfold bind. pose proof (Hbody acc x s) as Hx.
    destruct (body acc x s) as [[a| |] s1].
    + apply IH. intros; apply Hbody; now right.
    + exfalso. now apply (Hx e0 (or_introl eq_refl)).
    + discriminate.
Qed.
End MoreLoops.

Section MoreCalls.
Context {Board Move : Type} `{API : BoardAPI Board Move}.
Implicit Types (b : Board) (evaluator : Board -> Score).

Lemma visit_ext (call1 call2 : bool -> Py Board Score) f best (m : Move) b :
  (forall side s, call1 side s = call2 side s) ->
  visit call1 f best m b = visit call2 f best m b.
Proof. intros Hcalls. now rewrite !visit_run, Hcalls. Qed.

Lemma visit_no_raise (call : bool -> Py Board Score) f best (m : Move) b e :
  (forall side s e', fst (call side s) <> Raise e') ->
  fst (visit call f best m b) <> Raise e.
Proof.
  intros Hcall. rewrite visit_run.
  pose proof (Hcall (turn (push b m)) (push b m)) as Hc.
  destruct (call (turn (push b m)) (push b m)) as [[v| |] b']; cbn in *;
    [discriminate | apply Hc | discriminate].
Qed.

(** X6.  The depth test of [minimax] is an equality: called with [depth]
    above [max_depth] the search never stops at the limit and never consults
    the evaluator, so its outcome is the same under any two evaluators. *)
Theorem minimax_above_limit_ignores_evaluator fuel :
  forall depth max_depth color evaluator1 evaluator2 b,
    (max_depth < depth)%Z ->
    minimax fuel depth max_depth color evaluator1 b =
    minimax fuel depth max_depth color evaluator2 b.
Proof.
  induction fuel as [|fuel IH]; intros depth max_depth color evaluator1 evaluator2 b Habove;
    (destruct (is_game_over b) eqn:Hover;
     [ now rewrite !minimax_terminal by assumption | ];
     assert ((depth =? max_depth)%Z = false) as Hlimit by (apply Z.eqb_neq; lia);
     rewrite !minimax_expand by assumption;
     apply for_each_ext; intros acc m s _; apply visit_ext; intros side s1;
     cbn [minimax_call]).
  - reflexivity.
  - apply IH. lia.
Qed.

End MoreCalls.

Lemma minimax_above_limit_ignores_evaluator_witness :
  minimax 3 2 1 true (fun _ => 0%Q)
          (Scripted.start (Scripted.Node false false true [Scripted.open_leaf false])) =
  minimax 3 2 1 true (fun _ => 1 # 2)
          (Scripted.start (Scripted.Node false false true [Scripted.open_leaf false])).
Proof.
  apply (minimax_above_limit_ignores_evaluator 3 2 1 true (fun _ => 0%Q) (fun _ => 1 # 2)
           (Scripted.start (Scripted.Node false false true [Scripted.open_leaf false]))).
  reflexivity.
Defined.

(** ** Depth-limited search, one ply at a time *)

Section DepthLimited.
Context {Board Move : Type} `{API : BoardAPI Board Move}.
Implicit Types (b : Board) (evaluator : Board -> Score).

(** X5.  On a position that is not reported game over and is not at the
    depth limit, under the make/unmake contract: when the searches of the
    children, one ply deeper and for the side the board reports after the
    push, return the scores [scores], [minimax] returns their fold into the
    initial value and leaves the board as it was; the result bounds every
    child score (from above for the maximizing side, from below otherwise)
    and is one of them or the initial value. *)
Theorem minimax_one_ply depth max_depth color evaluator b :
  make_unmake_paired ->
  is_game_over b = false ->
  depth <> max_depth ->
  forall fuel scores,
    Forall2 (fun m v =>
               fst (minimax fuel (depth + 1) max_depth (turn (push b m)) evaluator
                            (push b m)) = Ret v)
            (legal_moves b) scores ->
    minimax (S fuel) depth max_depth color evaluator b =
    (Ret (combined color scores), b) /\
    (forall v, In v scores ->
               if color then (v <= combined color scores)%Q
               else (combined color scores <= v)%Q) /\
    (combined color scores = initial_best color \/
     In (combined color scores) scores).
Proof.
  intros paired Hover Hlimit fuel scores Hscores. apply Z.eqb_neq in Hlimit.
  split; [|split; apply fold_accumulate_bound].
  rewrite minimax_expand by assumption. apply for_each_fold.
  eapply Forall2_in_left; [exact Hscores|].
  intros m v Hm Hchild acc. cbn beta in Hchild.
  apply visit_returns; [now apply paired|]. cbn [minimax_call].
  destruct (minimax _ _ _ _ _ (push b m)) as [r b'] eqn:Hrun.
  cbn in Hchild. subst r. apply (minimax_frame paired) in Hrun as Hb'. now subst b'.
Qed.

(** X7.  Under the make/unmake contract, a call of [minimax] at or below
    the depth limit returns, with the board as it was, as soon as the
    nesting of recursive calls may reach [max_depth - depth]: the search
    never goes deeper than the limit. *)
Theorem minimax_nesting_bound fuel depth max_depth color evaluator b :
  make_unmake_paired ->
  (depth <= max_depth)%Z ->
  (Z.to_nat (max_depth - depth) <= fuel)%nat ->
  exists v, minimax fuel depth max_depth color evaluator b = (Ret v, b).
Proof. intros paired Hle Hfuel. now apply minimax_completes. Qed.

(** X8.  On a checkmate position the score [minimax] returns strictly
    decreases as the depth grows, for the maximizing side to move as well as
    for the other: a mate found deeper is worth less to the maximizing side,
    whichever side is mated. *)
Theorem checkmate_score_decreases_with_depth color b depth1 depth2 :
  is_game_over b = true -> is_checkmate b = true ->
  (depth1 < depth2)%Z ->
  forall fuel1 fuel2 max_depth1 max_depth2 evaluator1 evaluator2,
  exists v1 v2,
    minimax fuel1 depth1 max_depth1 color evaluator1 b = (Ret v1, b) /\
    minimax fuel2 depth2 max_depth2 color evaluator2 b = (Ret v2, b) /\
    (v2 < v1)%Q.
Proof.
  intros Hover Hmate Hlt fuel1 fuel2 max_depth1 max_depth2 evaluator1 evaluator2.
  rewrite !minimax_terminal by assumption. rewrite Hmate.
  do 2 eexists. split; [reflexivity|]. split; [reflexivity|].
  rewrite Zlt_Qlt in Hlt. unfold max_score, Qdiv.
  change (/ (10000 # 1))%Q with (1 # 10000)%Q.
  destruct color; lra.
Qed.

End DepthLimited.

Lemma minimax_one_ply_witness :
  let b := Scripted.start
             (Scripted.Node false false false
                [Scripted.open_leaf true; Scripted.mated_white]) in
  minimax 1 0 1 false (fun _ => 1 # 4) b =
  (Ret (combined false [1 # 4; (- ((max_score + inject_Z 1) / max_score))%Q]), b) /\
  (forall v, In v [1 # 4; (- ((max_score + inject_Z 1) / max_score))%Q] ->
             (combined false [1 # 4; (- ((max_score + inject_Z 1) / max_score))%Q]
              <= v)%Q) /\
  (combined false [1 # 4; (- ((max_score + inject_Z 1) / max_score))%Q]
   = initial_best false \/
   In (combined false [1 # 4; (- ((max_score + inject_Z 1) / max_score))%Q])
      [1 # 4; (- ((max_score + inject_Z 1) / max_score))%Q]).
Proof.
  intros b.
  apply (minimax_one_ply 0 1 false (fun _ => 1 # 4) b Scripted_paired eq_refl).
  - discriminate.
  - repeat constructor.
Defined.

Lemma minimax_nesting_bound_witness :
  let b := Scripted.start
             (Scripted.Node false false true [Scripted.open_leaf false]) in
  exists v, minimax 2 0 2 true (fun _ => 0%Q) b = (Ret v, b).
Proof.
  intros b.
  apply (minimax_nesting_bound 2 0 2 true (fun _ => 0%Q) b Scripted_paired).
  - discriminate.
  - apply le_n.
Defined.

Lemma checkmate_score_decreases_with_depth_witness :
  exists v1 v2,
    minimax 0 1 4 false (fun _ => 0%Q) (Scripted.start Scripted.mated_black)
    = (Ret v1, Scripted.start Scripted.mated_black) /\
    minimax 0 3 4 false (fun _ => 0%Q) (Scripted.start Scripted.mated_black)
    = (Ret v2, Scripted.start Scripted.mated_black) /\
    (v2 < v1)%Q.
Proof.
  apply (checkmate_score_decreases_with_depth false
           (Scripted.start Scripted.mated_black) 1 3); reflexivity.
Defined.

(** ** The selector *)

Lemma select_score (side : bool) {Move : Type} (best : option Move * Score)
      (m : Move) (s : Score) :
  snd (select side best (m, s)) = accumulate side (snd best) s.
Proof.
  unfold select, improves, accumulate, py_max, py_min. cbn [fst snd].
  destruct side; [destruct (Qltb (snd best) s) | destruct (Qltb s (snd best))];
    reflexivity.
Qed.

Section Selector.
Context {Board Move : Type} `{API : BoardAPI Board Move}.
Implicit Types (b : Board) (evaluator : Board -> Score).

(** One turn of the selector's loop, on any board. *)
Lemma consider_unfold fuel max_depth evaluator best (m : Move) b :
  consider fuel max_depth evaluator best m b =
  match minimax fuel 0 max_depth (turn (push b m)) evaluator (push b m) with
  | (Ret s, b') => (Ret (select (turn (pop b')) best (m, s)), pop b')
  | (Raise e, b') => (Raise e, b')
  | (OutOfFuel, b') => (OutOfFuel, b')
  end.
Proof.
  unfold consider, bind, update, ask, ret.
  destruct (minimax fuel 0 max_depth (turn (push b m)) evaluator (push b m))
    as [[s| |] b']; reflexivity.
Qed.

(** X9.  A move returned by [find_best_move] is one of the legal moves of
    the board it was called on. *)
Theorem find_best_move_returns_legal_move fuel max_depth evaluator b m s b' :
  find_best_move fuel max_depth evaluator b = (Ret (Some m, s), b') ->
  In m (legal_moves b).
Proof.
  destruct (legal_moves b) as [|m0 rest0] eqn:Hmoves.
  - unfold find_best_move, bind, ask, ret. rewrite Hmoves. cbn. discriminate.
  - rewrite find_best_move_expand by congruence. rewrite Hmoves.
    intros Hrun.
    assert (forall m', fst (Some m, s) = Some m' -> In m' (m0 :: rest0)) as Hinv.
    { eapply (for_each_result (m0 :: rest0) (consider fuel max_depth evaluator)
                (fun acc => forall m', fst acc = Some m' -> In m' (m0 :: rest0)));
        [ | | exact Hrun]; [|discriminate].
      intros acc x s0 r s1 Hx Hacc. rewrite consider_unfold.
      destruct (minimax fuel 0 max_depth (turn (push s0 x)) evaluator (push s0 x))
        as [[sc| |] b1]; try discriminate.
      intros [= <- _]. unfold select.
      destruct (improves _ _ _); cbn [fst snd]; [now intros m' [= <-] | exact Hacc]. }
    now apply Hinv.
Qed.

(** The selector's loop and the loop of [minimax] one ply above depth 0, run
    side by side. *)
Lemma selector_loop_is_minimax_loop (paired : make_unmake_paired)
      fuel max_depth evaluator b :
  forall moves, incl moves (legal_moves b) ->
  forall best r b',
    for_each moves best (consider fuel max_depth evaluator) b = (Ret r, b') ->
    for_each moves (snd best)
             (visit (minimax_call (S fuel) evaluator 0 max_depth) (accumulate (turn b))) b
    = (Ret (snd r), b).
Proof.
  induction moves as [|m rest IH]; intros Hincl best r b'; cbn [for_each].
  - unfold ret. now intros [= <- _].
  - unfold bind.
    rewrite (consider_run paired fuel max_depth evaluator best m b)
      by (apply Hincl; now left).
    rewrite visit_run. cbn [minimax_call].
    destruct (minimax fuel 0 max_depth (turn (push b m)) evaluator (push b m))
      as [[s| |] b1] eqn:E; try discriminate.
    apply (minimax_frame paired) in E. subst b1.
    rewrite paired by (apply Hincl; now left).
    intros Hrest. rewrite <- (select_score (turn b) best m s).
    apply (IH (fun x Hx => Hincl x (or_intror Hx)) _ _ _ Hrest).
Qed.

(** X10.  At a root that is not reported game over and has a legal move,
    under the make/unmake contract, the score [find_best_move] returns is
    the value [minimax] gives the root itself when called one ply above
    depth 0, for the side to move, with the same limit. *)
Theorem find_best_move_score_is_minimax fuel max_depth evaluator b r b' :
  make_unmake_paired ->
  is_game_over b = false ->
  legal_moves b <> [] ->
  max_depth <> (-1)%Z ->
  find_best_move fuel max_depth evaluator b = (Ret r, b') ->
  minimax (S fuel) (-1) max_depth (turn b) evaluator b = (Ret (snd r), b).
Proof.
  intros paired Hover Hmoves Hlimit.
  rewrite find_best_move_expand by assumption.
  rewrite minimax_expand by (try apply Z.eqb_neq; auto).
  intros Hrun.
  apply (selector_loop_is_minimax_loop paired fuel max_depth evaluator b
           (legal_moves b) (incl_refl _) _ _ _ Hrun).
Qed.

(** With scores that all improve on the initial value, the selector ends
    with a move. *)
Lemma selector_finds_move fuel max_depth evaluator b :
  make_unmake_paired ->
  (forall b', (- max_score < evaluator b' /\ evaluator b' < max_score)%Q) ->
  (0 <= max_depth < 99990000)%Z ->
  (Z.to_nat max_depth <= fuel)%nat ->
  legal_moves b <> [] ->
  (forall m, In m (legal_moves b) ->
             moves_exist (Z.to_nat max_depth) (push b m) = true) ->
  exists m s,
    find_best_move fuel max_depth evaluator b = (Ret (Some m, s), b) /\
    In m (legal_moves b) /\
    (- max_score < s /\ s < max_score)%Q.
Proof.
  intros paired Heval Hdepth Hfuel Hmoves Hbelow.
  rewrite find_best_move_expand by assumption.
  destruct (for_each_invariant (legal_moves b) (consider fuel max_depth evaluator) b
              (fun acc => acc = (None, initial_best (turn b)))
              (fun acc => exists m, fst acc = Some m /\ In m (legal_moves b) /\
                                    inside (snd acc)))
    with (acc := (@None Move, initial_best (turn b)))
    as [r [Hr [_ Hfound]]]; [| reflexivity |].
  - intros acc m Hm Hacc.
    destruct (minimax_inside paired evaluator max_depth fuel Heval (proj2 Hdepth)
                0%Z (turn (push b m)) (push b m)) as [s [Hs Hinside]];
      [lia | now rewrite Z.sub_0_r | rewrite Z.sub_0_r; now apply Hbelow |].
    rewrite (consider_run paired fuel max_depth evaluator acc m b) by assumption.
    rewrite Hs.
    eexists. split; [reflexivity|]. unfold select. cbn [fst snd].
    destruct Hacc as [->|[m' [Hfst [Hin Hacc]]]]; cbn [snd].
    + assert (improves (turn b) s (initial_best (turn b)) = true) as ->.
      { apply improves_true. destruct Hinside. unfold initial_best.
        destruct (turn b); assumption. }
      exists m. cbn [fst snd]. split; [reflexivity | split; assumption].
    + destruct (improves (turn b) s (snd acc)); [exists m | exists m'];
        cbn [fst snd]; (split; [first [reflexivity | assumption] | split; assumption]).
  - destruct (Hfound Hmoves) as [m [Hfst [Hin Hinside]]].
    exists m, (snd r). rewrite Hr. destruct r as [bm bs]. cbn [fst snd] in *. subst bm.
    split; [reflexivity | split; assumption].
Qed.

(** X11.  Under the make/unmake contract, with an evaluator whose values lie
    strictly between [-max_score] and [max_score], a limit between 0 and
    99990000, fuel for the limit, and a legal move at the root and at every
    position the searches below it loop on: [find_best_move] returns a move,
    a legal one, with a score strictly between [-max_score] and
    [max_score]. *)
Theorem find_best_move_finds_move fuel max_depth evaluator b :
  make_unmake_paired ->
  (forall b', (- max_score < evaluator b' /\ evaluator b' < max_score)%Q) ->
  (0 <= max_depth < 99990000)%Z ->
  (Z.to_nat max_depth <= fuel)%nat ->
  legal_moves b <> [] ->
  (forall m, In m (legal_moves b) ->
             moves_exist (Z.to_nat max_depth) (push b m) = true) ->
  exists m s,
    find_best_move fuel max_depth evaluator b = (Ret (Some m, s), b) /\
    In m (legal_moves b) /\
    (- max_score < s /\ s < max_score)%Q.
Proof. apply selector_finds_move. Qed.

End Selector.

Lemma find_best_move_returns_legal_move_witness :
  In 0%nat
     (legal_moves
        (Scripted.start
           (Scripted.Node false false true
              [Scripted.open_leaf false; Scripted.open_leaf false;
               Scripted.draw_leaf]))).
Proof.
  apply (find_best_move_returns_legal_move 0 0 (fun _ => 1 # 4)
           (Scripted.start
              (Scripted.Node false false true
                 [Scripted.open_leaf false; Scripted.open_leaf false;
                  Scripted.draw_leaf]))
           0%nat (1 # 4)%Q
           (Scripted.start
              (Scripted.Node false false true
                 [Scripted.open_leaf false; Scripted.open_leaf false;
                  Scripted.draw_leaf]))).
  reflexivity.
Defined.

Lemma find_best_move_score_is_minimax_witness :
  let b := Scripted.start
             (Scripted.Node false false true
                [Scripted.open_leaf false; Scripted.open_leaf false;
                 Scripted.draw_leaf]) in
  minimax 1 (-1) 0 (turn b) (fun _ => 1 # 4) b = (Ret (snd (Some 0%nat, 1 # 4)), b).
Proof.
  intros b.
  apply (find_best_move_score_is_minimax 0 0 (fun _ => 1 # 4) b
           (Some 0%nat, (1 # 4)%Q) b Scripted_paired).
  - reflexivity.
  - discriminate.
  - discriminate.
  - reflexivity.
Defined.

Lemma find_best_move_finds_move_witness :
  let b := Scripted.start
             (Scripted.Node false false true
                [Scripted.open_leaf false; Scripted.draw_leaf]) in
  exists m s,
    find_best_move 0 0 (fun _ => 0%Q) b = (Ret (Some m, s), b) /\
    In m (legal_moves b) /\
    (- max_score < s /\ s < max_score)%Q.
Proof.
  intros b.
  apply (find_best_move_finds_move 0 0 (fun _ => 0%Q) b Scripted_paired).
  - intros b'. split; reflexivity.
  - lia.
  - apply le_n.
  - discriminate.
  - intros m _. cbn [moves_exist Z.to_nat]. apply orb_true_r.
Defined.

(** ** What the searches never do *)

Section NeverRaise.
Context {Board Move : Type} `{API : BoardAPI Board Move}.
Implicit Types (b : Board) (evaluator : Board -> Score).

Lemma probabilistic_no_raise fuel :
  forall p mp color evaluator b e,
    fst (probabilistic_minimax fuel p mp color evaluator b) <> Raise e.
Proof.
  induction fuel as [|fuel IH]; intros p mp color evaluator b e;
    (destruct (is_game_over b) eqn:Hover;
     [ rewrite probabilistic_terminal by assumption; discriminate | ];
     destruct (Qltb p mp) eqn:Hthreshold;
     [ rewrite probabilistic_frontier by assumption; discriminate | ];
     rewrite probabilistic_expand by assumption;
     apply for_each_no_raise; intros acc m s e' Hm; apply visit_no_raise;
     intros side s1 e''; unfold bind, lift, py_div;
     (destruct (Z.of_nat (length (legal_moves b)) =? 0)%Z eqn:Hzero;
      [ apply Z.eqb_eq in Hzero; destruct (legal_moves b); [destruct Hm | discriminate]
      | ]);
     cbn [probabilistic_call]).
  - discriminate.
  - apply IH.
Qed.

(** X12.  [probabilistic_minimax] never raises [ZeroDivisionError], on
    any board and with any budget and threshold: the quotient of the budget
    by the number of moves is only taken inside the loop over the moves,
    where that number is at least one. *)
Theorem probabilistic_minimax_never_divides_by_zero
        fuel proba_depth min_proba_depth color evaluator b :
  fst (probabilistic_minimax fuel proba_depth min_proba_depth color evaluator b)
  <> Raise ZeroDivisionError.
Proof. apply probabilistic_no_raise. Qed.

(** X13.  On a board where no position is reported game over and every
    position has exactly one legal move, [probabilistic_minimax] called with
    a budget that is not below the threshold never returns: dividing by one
    move leaves the budget as it is, and the recursion uses up any fuel. *)
Theorem probabilistic_minimax_single_move_never_returns
        fuel proba_depth min_proba_depth color evaluator b :
  (forall b', is_game_over b' = false) ->
  (forall b', exists m, legal_moves b' = [m]) ->
  (min_proba_depth <= proba_depth)%Q ->
  fst (probabilistic_minimax fuel proba_depth min_proba_depth color evaluator b)
  = OutOfFuel.
Proof.
  intros Hover Hone. revert proba_depth color b.
  induction fuel as [|fuel IH]; intros p color b Hbudget;
    (apply Qltb_ge in Hbudget as Hthreshold;
     rewrite probabilistic_expand by auto;
     destruct (Hone b) as [m ->];
     cbn [for_each length Z.of_nat]; unfold bind at 1;
     rewrite visit_run; unfold bind, lift, py_div; cbn [Z.eqb Pos.of_succ_nat];
     cbn [probabilistic_call]).
  - reflexivity.
  - assert (min_proba_depth <= p / inject_Z 1)%Q as Hnext.
    { unfold Qdiv. change (/ inject_Z 1)%Q with 1%Q. lra. }
    specialize (IH (p / inject_Z 1)%Q (turn (push b m)) (push b m) Hnext).
    destruct (probabilistic_minimax fuel (p / inject_Z 1) min_proba_depth
                (turn (push b m)) evaluator (push b m)) as [[v| |] b1];
      cbn in IH; try discriminate IH. reflexivity.
Qed.

End NeverRaise.

Lemma probabilistic_minimax_single_move_never_returns_witness :
  fst (probabilistic_minimax 25 1 (1 # 100) true (fun _ => 0%Q) 0%nat) = OutOfFuel.
Proof.
  apply (probabilistic_minimax_single_move_never_returns
           25 1 (1 # 100) true (fun _ => 0%Q) 0%nat).
  - reflexivity.
  - intros b'. now exists tt.
  - discriminate.
Defined.

(** ** Games *)

Section Games.
Context {Board Move : Type} `{API : BoardAPI Board Move}.
Implicit Types (b : Board) (white_eval black_eval : Board -> Score)
         (tally : score_board).

Lemma play_game_over plies white_eval black_eval :
  forall b b',
    play_game plies white_eval black_eval b = (Ret tt, b') ->
    is_game_over b' = true.
Proof.
  induction plies as [|plies IH]; intros b b'; cbn [play_game];
    unfold bind at 1, ask at 1; destruct (is_game_over b) eqn:Hover;
    try (unfold ret; intros [= <-]; exact Hover).
  unfold bind at 1, ask at 1. unfold bind at 1.
  destruct (find_best_move 1 1 _ b) as [[[move score]| |] b1]; try discriminate.
  unfold bind at 1. cbn [fst].
  destruct move as [m|]; [|discriminate].
  cbn. apply IH.
Qed.

(** X14.  When the loop of a game returns, the board it leaves is reported
    game over: the loop has no other way out than its own test (or an
    exception). *)
Theorem play_game_returns_game_over plies white_eval black_eval b b' :
  play_game plies white_eval black_eval b = (Ret tt, b') ->
  is_game_over b' = true.
Proof. apply play_game_over. Qed.



Lemma moves_exist_everywhere :
  (forall b, is_game_over b = false -> legal_moves b <> []) ->
  forall n b, moves_exist n b = true.
Proof.
  intros Hrules. induction n as [|n IH]; intros b; cbn [moves_exist].
  - apply orb_true_r.
  - destruct (is_game_over b) eqn:Hover; [reflexivity|]. cbn [orb].
    specialize (Hrules b Hover).
    destruct (legal_moves b) as [|m rest]; [congruence|].
    apply forallb_forall. intros x _. apply IH.
Qed.

(** X16.  Under the make/unmake contract, on a board where every position
    that is not reported game over has a legal move, and with two evaluators
    whose values lie strictly between [-max_score] and [max_score], the loop
    of a game never raises: the selector always hands a move to [push]. *)
Theorem play_game_never_raises plies white_eval black_eval b e :
  make_unmake_paired ->
  (forall b', is_game_over b' = false -> legal_moves b' <> []) ->
  (forall b', (- max_score < white_eval b' /\ white_eval b' < max_score)%Q) ->
  (forall b', (- max_score < black_eval b' /\ black_eval b' < max_score)%Q) ->
  fst (play_game plies white_eval black_eval b) <> Raise e.
Proof.
  intros paired Hrules Hwhite Hblack. revert b.
  induction plies as [|plies IH]; intros b; cbn [play_game];
    unfold bind at 1, ask at 1; destruct (is_game_over b) eqn:Hover;
    try discriminate.
  unfold bind at 1, ask at 1. unfold bind at 1.
  destruct (selector_finds_move 1 1 (if turn b then white_eval else black_eval) b paired)
    as [m [s [Hfound _]]].
  - destruct (turn b); assumption.
  - lia.
  - apply le_n.
  - now apply Hrules.
  - intros m _. now apply moves_exist_everywhere.
  - rewrite Hfound. unfold bind at 1. cbn. apply IH.
Qed.

End Games.

Lemma play_game_returns_game_over_witness :
  is_game_over (push (Scripted.start
                        (Scripted.Node false false true [Scripted.mated_black]))
                     0%nat) = true.
Proof.
  apply (play_game_returns_game_over 1 (fun _ => 0%Q) (fun _ => 0%Q)
           (Scripted.start (Scripted.Node false false true [Scripted.mated_black]))).
  reflexivity.
Defined.


Lemma play_game_never_raises_witness :
  fst (play_game 4 (fun _ => 0%Q) (fun _ => 0%Q) 0%nat) <> Raise AttributeError.
Proof.
  apply (play_game_never_raises 4 (fun _ => 0%Q) (fun _ => 0%Q) 0%nat AttributeError).
  - intros n m _. reflexivity.
  - intros n _. discriminate.
  - intros n. split; reflexivity.
  - intros n. split; reflexivity.
Defined.

(** ** Searching with the material evaluator *)

Section MaterialSearch.
Context {Board Move : Type} `{API : BoardAPI Board Move} `{Fen : FenAPI Board}.
Implicit Types (b : Board).

Lemma naive_evaluation_inside b :
  (length (String.list_ascii_of_string (board_fen b)) <= 71)%nat ->
  inside (naive_evaluation b).
Proof.
  intros Hlen. unfold naive_evaluation, inside.
  pose proof (count_pieces_bound (String.list_ascii_of_string (board_fen b))) as Hb.
  set (val := count_pieces _) in *.
  assert (forall x : Z, (-640 <= x <= 640)%Z ->
            (- max_score < inject_Z x / val_max /\
             inject_Z x / val_max < max_score)%Q) as Hq.
  { intros x [Hlo Hhi]. rewrite Zle_Qle in Hlo, Hhi.
    change (inject_Z (-640)) with (- (640 # 1))%Q in Hlo.
    change (inject_Z 640) with (640 # 1)%Q in Hhi.
    unfold max_score, val_max, Qdiv. change (/ (22 # 1))%Q with (1 # 22)%Q.
    split; lra. }
  apply Hq.
  destruct (has_castling_rights b true), (has_castling_rights b false); lia.
Qed.

(** X4.  With [naive_evaluation] as the evaluator, on boards whose
    placement strings have at most 71 characters (eight ranks of at most
    eight characters and seven separators), under the make/unmake contract,
    with depths between 0 and a limit below 99990000, fuel for the plies that
    remain and a legal move wherever the search loops: [minimax] returns a
    score strictly between [-max_score] and [max_score], so the initial
    value of [best_score] is never what comes back. *)
Theorem minimax_with_naive_evaluation fuel depth max_depth color b :
  make_unmake_paired ->
  (forall b', (length (String.list_ascii_of_string (board_fen b')) <= 71)%nat) ->
  (0 <= depth <= max_depth)%Z -> (max_depth < 99990000)%Z ->
  (Z.to_nat (max_depth - depth) <= fuel)%nat ->
  moves_exist (Z.to_nat (max_depth - depth)) b = true ->
  exists v,
    minimax fuel depth max_depth color naive_evaluation b = (Ret v, b) /\
    (- max_score < v /\ v < max_score)%Q.
Proof.
  intros paired Hlen Hdepth Hmax Hfuel Hmoves.
  apply (minimax_inside paired naive_evaluation max_depth fuel); try assumption.
  intros b'. apply naive_evaluation_inside, Hlen.
Qed.

End MaterialSearch.

Lemma minimax_with_naive_evaluation_witness :
  exists v,
    minimax 2 0 2 true naive_evaluation 0%nat = (Ret v, 0%nat) /\
    (- max_score < v /\ v < max_score)%Q.
Proof.
  apply (minimax_with_naive_evaluation 2 0 2 true 0%nat).
  - intros n m _. reflexivity.
  - intros n. cbn [board_fen Corridor.pieces].
    destruct (Nat.even n); cbn; lia.
  - lia.
  - lia.
  - apply le_n.
  - reflexivity.
Defined.

(** ** A budget that is used up *)

Section Budget.
Context {Board Move : Type} `{API : BoardAPI Board Move}.
Implicit Types (b : Board) (evaluator : Board -> Score).

Lemma budget_shrinks (p mp : Q) (n k : Z) :
  (0 < mp)%Q -> (mp <= p)%Q -> (2 <= n)%Z -> (0 <= k)%Z ->
  (p < mp * inject_Z (2 ^ (k + 1)))%Q ->
  (p / inject_Z n < mp * inject_Z (2 ^ k))%Q.
Proof.
  intros Hmp Hp Hn Hk Hlt.
  rewrite Z.pow_add_r, Z.pow_1_r, inject_Z_mult in Hlt by lia.
  change (inject_Z 2) with 2%Q in Hlt.
  assert (0 < inject_Z (2 ^ k))%Q as Hpow.
  { change 0%Q with (inject_Z 0). rewrite <- Zlt_Qlt. apply Z.pow_pos_nonneg; lia. }
  assert (2 <= inject_Z n)%Q as Hn'.
  { change 2%Q with (inject_Z 2). now rewrite <- Zle_Qle. }
  apply Qlt_shift_div_r; [lra|].
  set (c := (mp * inject_Z (2 ^ k))%Q).
  assert (0 < c)%Q as Hc by (unfold c; apply Qmult_lt_0_compat; assumption).
  assert (p < c * 2)%Q as Hlt' by (unfold c; lra).
  apply Qlt_le_trans with (c * 2)%Q; [exact Hlt'|].
  apply Qmult_le_l; assumption.
Qed.

(** X17.  Under the make/unmake contract, with a positive threshold, on a
    board where every position that is not reported game over has at least
    two legal moves: a budget below [min_proba_depth * 2^k] is used up within
    [k] plies, and [probabilistic_minimax] returns, with the board as it was,
    as soon as the nesting of recursive calls may reach [k]. *)
Theorem probabilistic_minimax_budget_bound fuel :
  forall (k : nat) proba_depth min_proba_depth color evaluator b,
    make_unmake_paired ->
    (0 < min_proba_depth)%Q ->
    (forall b', is_game_over b' = false -> (2 <= length (legal_moves b'))%nat) ->
    (proba_depth < min_proba_depth * inject_Z (2 ^ Z.of_nat k))%Q ->
    (k <= fuel)%nat ->
    exists v,
      probabilistic_minimax fuel proba_depth min_proba_depth color evaluator b
      = (Ret v, b).
Proof.
  induction fuel as [|fuel IH];
    intros k p mp color evaluator b paired Hmp Hwide Hbudget Hfuel;
    (destruct (is_game_over b) eqn:Hover;
     [ rewrite probabilistic_terminal by assumption; eauto | ]);
    (destruct (Qltb p mp) eqn:Hthreshold;
     [ rewrite probabilistic_frontier by assumption; eauto | ]);
    apply Qltb_ge in Hthreshold as Hge;
    (destruct k as [|k];
     [ change (inject_Z (2 ^ Z.of_nat 0)) with 1%Q in Hbudget; lra | ]).
  - lia.
  - rewrite probabilistic_expand by assumption.
    destruct (for_each_invariant (legal_moves b)
                (visit (fun side =>
                          p' <- lift (py_div p (Z.of_nat (length (legal_moves b)))) ;;
                          probabilistic_call (S fuel) evaluator p' mp side)
                       (accumulate color)) b
                (fun _ => True) (fun _ => True)) with (acc := initial_best color)
      as [r [Hr _]]; [| exact I | eauto].
    intros acc m Hm _.
    pose proof (Hwide b Hover) as Hhere.
    assert (p / inject_Z (Z.of_nat (length (legal_moves b)))
            < mp * inject_Z (2 ^ Z.of_nat k))%Q as Hnext.
    { apply budget_shrinks; try assumption; try lia.
      now rewrite Nat2Z.inj_succ, <- Z.add_1_r in Hbudget. }
    destruct (IH k _ mp (turn (push b m)) evaluator (push b m) paired Hmp
                 Hwide Hnext) as [v Hv].
    + lia.
    + exists (accumulate color acc v). split; [|exact I].
      apply visit_returns; [now apply paired|].
      unfold bind, lift, py_div.
      destruct (Z.of_nat (length (legal_moves b)) =? 0)%Z eqn:Hzero;
        [apply Z.eqb_eq in Hzero; lia|].
      cbn [probabilistic_call]. exact Hv.
Qed.

End Budget.

Lemma probabilistic_minimax_budget_bound_witness :
  exists v,
    probabilistic_minimax 2 1 (1 # 3) true (fun _ => 0%Q) (@nil bool)
    = (Ret v, @nil bool).
Proof.
  apply (probabilistic_minimax_budget_bound 2 2 1 (1 # 3) true (fun _ => 0%Q)
           (@nil bool)).
  - intros made m _. reflexivity.
  - reflexivity.
  - intros made _. apply le_n.
  - reflexivity.
  - apply le_n.
Defined.
